(** * The page router and transition controller of [script.js]

    A shallow embedding of [class ModernWebApp]: the navigation guard, the
    asynchronous [loadPage] transition (fade-out, content swap, fade-in,
    re-arming of the scroll observer), the history push of [navigateTo], the
    [popstate] replay, the one-shot scroll reveal and the title table.

    The browser is modelled as an explicit world: the instance fields of the
    application, the part of the document the code touches, the timer queue of
    [setTimeout], the microtask queue that carries the continuations of
    [await], a virtual clock, and a log of the effects in the order they
    happen.  One browser task is one call of [dispatch]; it runs a handler
    and then drains the microtasks, as the event loop does.

    The router takes the initial page as a parameter of [setup] and starts
    from an instance whose construction has succeeded.  The second part of
    the model covers what surrounds it: the parsing of [location.pathname],
    the constructor with its [bind] statements and the top level of the
    script, the navbar scroll effect, the mobile menu with the resize
    handler, and the closures of [utils.debounce] and [utils.throttle],
    each as a small machine of its own.

    Not modelled: the literal markup of the payloads (they are named, and the
    number of their [.animate-on-scroll] elements is kept), the frames of
    [smoothScrollTo], the image observer of [setupLazyLoading] and
    [utils.isInViewport]. *)

From stdpp Require Import gmap strings list.
From Stdlib Require Import Ascii String.
From Stdlib Require QArith.

Set Primitive Projections.
Set Default Proof Using "Type".

Open Scope string_scope.

(** ** Values of the language *)

(** Page identifiers are plain strings ([link.dataset.page],
    [event.state.page], a segment of [location.pathname]). *)
Definition Page := string.

(** What [titles[page]] can evaluate to.  An object literal inherits from
    [Object.prototype], so a property read with a computed key finds the
    members of the prototype as well as the four own keys. *)
Inductive JSValue :=
| JSUndefined
| JSString (s : string)
| JSInherited (member : string).

Module JS.

(** The property names every object inherits from [Object.prototype]. *)
Definition Object_prototype : list string :=
  [ "constructor"; "__proto__"; "hasOwnProperty"; "isPrototypeOf";
    "propertyIsEnumerable"; "toLocaleString"; "toString"; "valueOf";
    "__defineGetter__"; "__defineSetter__"; "__lookupGetter__";
    "__lookupSetter__" ].

Fixpoint own (props : list (string * string)) (key : string) : option string :=
  match props with
  | [] => None
  | (k, v) :: rest => if String.eqb k key then Some v else own rest key
  end.

(** [obj[key]] for an object literal with the string-valued own properties
    [props]: own properties first, then the prototype chain. *)
Definition get (props : list (string * string)) (key : string) : JSValue :=
  match own props key with
  | Some v => JSString v
  | None =>
      if existsb (String.eqb key) Object_prototype
      then JSInherited key
      else JSUndefined
  end.

Definition truthy (v : JSValue) : bool :=
  match v with
  | JSUndefined => false
  | JSString EmptyString => false
  | JSString _ => true
  | JSInherited _ => true
  end.

(** [a || b] *)
Definition or (a b : JSValue) : JSValue := if truthy a then a else b.

(** The string conversion applied by the [document.title] setter.  The
    inherited members are built-in functions, printed in the native
    function form (engines differ in its white space only), except
    [__proto__], which is the prototype object itself. *)
Definition ToString (v : JSValue) : string :=
  match v with
  | JSUndefined => "undefined"
  | JSString s => s
  | JSInherited m =>
      if String.eqb m "__proto__" then "[object Object]"
      else if String.eqb m "constructor" then "function Object() { [native code] }"
      else "function " +:+ m +:+ "() { [native code] }"
  end.

Definition isDigit (a : ascii) : bool :=
  (48 <=? nat_of_ascii a)%nat && (nat_of_ascii a <=? 57)%nat.

Fixpoint digits (s : string) (acc : option nat) : option nat :=
  match s with
  | String a rest =>
      if isDigit a
      then digits rest (Some (10 * default 0 acc + (nat_of_ascii a - 48)))
      else acc
  | EmptyString => acc
  end.

(** [parseInt(s)] on a string with no leading white space or sign: the
    value of the longest prefix of decimal digits, [None] for [NaN]. *)
Definition parseInt (s : string) : option nat := digits s None.

End JS.

(** ** The payloads *)

(** The HTML fragments the application writes into the container.
    [ShellMarkup] is whatever [index.html] ships inside it. *)
Inductive Markup :=
| ShellMarkup
| HomeMarkup
| AboutMarkup
| ProjectsMarkup
| ContactMarkup
| NotFoundMarkup
| ErrorMarkup.

#[global] Instance Markup_eq_dec : EqDecision Markup.
Proof. solve_decision. Defined.

Definition getHomeContent : Markup := HomeMarkup.
Definition getAboutContent : Markup := AboutMarkup.
Definition getProjectsContent : Markup := ProjectsMarkup.
Definition getContactContent : Markup := ContactMarkup.
Definition get404Content : Markup := NotFoundMarkup.
Definition getErrorContent : Markup := ErrorMarkup.

(** The number of elements of class [animate-on-scroll] in each fragment
    (the projects page has one card for each of its six projects). *)
Definition animatableCount (m : Markup) : nat :=
  match m with
  | HomeMarkup => 5
  | AboutMarkup => 2
  | ProjectsMarkup => 6
  | ContactMarkup => 2
  | ShellMarkup | NotFoundMarkup | ErrorMarkup => 0
  end.

(** [getPageContent(page)]: a [switch] with strict comparison against the
    four literals and a [default] branch. *)
Definition getPageContent (page : Page) : Markup :=
  if String.eqb page "home" then getHomeContent
  else if String.eqb page "about" then getAboutContent
  else if String.eqb page "projects" then getProjectsContent
  else if String.eqb page "contact" then getContactContent
  else get404Content.

(** The four page identifiers of the [switch]. *)
Definition enumerated (page : Page) : Prop :=
  page = "home" ∨ page = "about" ∨ page = "projects" ∨ page = "contact".

(** The object literal [titles] of [updatePageTitle]. *)
Definition titles : list (string * string) :=
  [ ("home", "Birtney666 - 开发者 & 创造者");
    ("about", "关于我 - Birtney666");
    ("projects", "我的项目 - Birtney666");
    ("contact", "联系我 - Birtney666") ].

Definition homeTitle : string := "Birtney666 - 开发者 & 创造者".

(** The value assigned to [document.title]:
    [titles[page] || titles.home], converted to a string. *)
Definition pageTitle (page : Page) : string :=
  JS.ToString (JS.or (JS.get titles page) (JS.get titles "home")).

(** ** The host and the world *)

(** The host operations of the [try] block that the model lets fail: the two
    fades and the content resolution. *)
Inductive Op := OpFadeOut | OpResolveContent | OpFadeIn.

Inductive Error :=
| ReferenceError (name : string)
| HostFault (op : Op)
| SecurityError (refused : string).

(** What the browser provides and the program cannot change.
    [history.pushState(state, '', url)] throws a [SecurityError] when the
    URL does not parse against the URL of the document or the document may
    not have its URL rewritten to it: it names another origin, or the
    document was loaded from a file.  Which URLs those are depends on where
    the document lives, so it is a function of the host. *)
Record Host := {
  hasIntersectionObserver : bool;   (* 'IntersectionObserver' in window *)
  hasNativeLazyLoading : bool;      (* 'loading' in HTMLImageElement.prototype *)
  hasGtag : bool;                   (* typeof gtag !== 'undefined' *)
  throws : Op → bool;               (* which host operations fail *)
  refusesURL : string → bool;       (* history.pushState throws for this URL *)
  outerNodes : gset nat             (* .animate-on-scroll elements outside the container *)
}.

Record Style := {
  opacity : string;
  transform : string;
  transition : string
}.

(** The element [#main-content]: its markup, its inline style, and the
    [.animate-on-scroll] elements the markup created. *)
Record Element := {
  innerHTML : Markup;
  style : Style;
  nodes : gset nat
}.

(** A link matched by [.navbar-link] or [.footer-link[data-page]]. *)
Record NavLink := {
  data_page : option Page;
  active : bool                     (* class 'active' and aria-current='page' *)
}.

Record HistoryEntry := {
  state_page : Page;                (* the state object { page } *)
  url : string
}.

#[global] Instance HistoryEntry_eq_dec : EqDecision HistoryEntry.
Proof. solve_decision. Defined.

Inductive LogLine :=
| ConsoleError (msg : string) (detail : option Error)
| ConsoleWarn (msg : string)
| ConsoleLog (msg : string).

(** The two places where [loadPage] is suspended on a timer, and the
    continuation of an [await] on a promise that was rejected. *)
Inductive Cont :=
| AfterFadeOut (page : Page)
| AfterFadeIn (page : Page)
| Rejected (page : Page) (e : Error).

(** The callbacks handed to [setTimeout]. *)
Inductive Callback :=
| ResolveFadeOut (page : Page)
| ResolveFadeIn (page : Page).

Record Timer := {
  due : nat;
  delay : nat;
  callback : Callback
}.

(** The effects, in the order they happen, each stamped with the clock. *)
Inductive Label :=
| TransitionBegun (page : Page)
| WaitBegun (ms : nat)
| WaitElapsed (ms : nat)
| ContentReplaced (m : Markup)
| ObserversArmed
| ScrollTop
| TitleSet (t : string)
| PageLoaded (page : Page) (timestamp : nat)
| HistoryPushed (e : HistoryEntry)
| Gtag (page_path : string)
| Aborted
| ErrorRendered
| GuardCleared.

#[global] Instance Label_eq_dec : EqDecision Label.
Proof. solve_decision. Defined.

Record World := {
  (* fields of ModernWebApp *)
  currentPage : Page;
  isLoading : bool;
  animationObserver : option (gset nat);   (* the observer and its targets *)
  (* the document *)
  mainContent : option Element;
  navLinks : list NavLink;
  inView : gset nat;                        (* elements of class 'in-view' *)
  nextNode : nat;
  title : string;
  (* the window *)
  history : list HistoryEntry;              (* entries pushed, oldest first *)
  console : list LogLine;
  timers : list Timer;
  microtasks : list Cont;
  now : nat;                                (* milliseconds *)
  trace : list (nat * Label)
}.

Definition set_currentPage (p : Page) (w : World) : World :=
  let 'Build_World _ il ao mc nl iv nn ti hi co tm mt nw tr := w in
  Build_World p il ao mc nl iv nn ti hi co tm mt nw tr.

Definition set_isLoading (b : bool) (w : World) : World :=
  let 'Build_World cp _ ao mc nl iv nn ti hi co tm mt nw tr := w in
  Build_World cp b ao mc nl iv nn ti hi co tm mt nw tr.

Definition set_animationObserver (o : option (gset nat)) (w : World) : World :=
  let 'Build_World cp il _ mc nl iv nn ti hi co tm mt nw tr := w in
  Build_World cp il o mc nl iv nn ti hi co tm mt nw tr.

Definition set_mainContent (e : option Element) (w : World) : World :=
  let 'Build_World cp il ao _ nl iv nn ti hi co tm mt nw tr := w in
  Build_World cp il ao e nl iv nn ti hi co tm mt nw tr.

Definition set_navLinks (l : list NavLink) (w : World) : World :=
  let 'Build_World cp il ao mc _ iv nn ti hi co tm mt nw tr := w in
  Build_World cp il ao mc l iv nn ti hi co tm mt nw tr.

Definition set_inView (v : gset nat) (w : World) : World :=
  let 'Build_World cp il ao mc nl _ nn ti hi co tm mt nw tr := w in
  Build_World cp il ao mc nl v nn ti hi co tm mt nw tr.

Definition set_nextNode (n : nat) (w : World) : World :=
  let 'Build_World cp il ao mc nl iv _ ti hi co tm mt nw tr := w in
  Build_World cp il ao mc nl iv n ti hi co tm mt nw tr.

Definition set_title (t : string) (w : World) : World :=
  let 'Build_World cp il ao mc nl iv nn _ hi co tm mt nw tr := w in
  Build_World cp il ao mc nl iv nn t hi co tm mt nw tr.

Definition set_history (h : list HistoryEntry) (w : World) : World :=
  let 'Build_World cp il ao mc nl iv nn ti _ co tm mt nw tr := w in
  Build_World cp il ao mc nl iv nn ti h co tm mt nw tr.

Definition set_console (c : list LogLine) (w : World) : World :=
  let 'Build_World cp il ao mc nl iv nn ti hi _ tm mt nw tr := w in
  Build_World cp il ao mc nl iv nn ti hi c tm mt nw tr.

Definition set_timers (t : list Timer) (w : World) : World :=
  let 'Build_World cp il ao mc nl iv nn ti hi co _ mt nw tr := w in
  Build_World cp il ao mc nl iv nn ti hi co t mt nw tr.

Definition set_microtasks (m : list Cont) (w : World) : World :=
  let 'Build_World cp il ao mc nl iv nn ti hi co tm _ nw tr := w in
  Build_World cp il ao mc nl iv nn ti hi co tm m nw tr.

Definition set_now (n : nat) (w : World) : World :=
  let 'Build_World cp il ao mc nl iv nn ti hi co tm mt _ tr := w in
  Build_World cp il ao mc nl iv nn ti hi co tm mt n tr.

Definition set_trace (t : list (nat * Label)) (w : World) : World :=
  let 'Build_World cp il ao mc nl iv nn ti hi co tm mt nw _ := w in
  Build_World cp il ao mc nl iv nn ti hi co tm mt nw t.

(** Appends an effect to the log, stamped with the current time. *)
Definition emit (l : Label) (w : World) : World :=
  set_trace (trace w ++ [(now w, l)]) w.

Definition console_write (l : LogLine) (w : World) : World :=
  set_console (console w ++ [l]) w.

(** The outcome of a statement sequence inside [try]. *)
Inductive Result :=
| Ok (w : World)
| Throw (e : Error) (w : World).

(** ** The application *)

Section App.

Variable h : Host.

(** [setTimeout(cb, ms)]: the queue is kept in the order the timers fire,
    by due time and then by age. *)
Fixpoint enqueue_timer (t : Timer) (q : list Timer) : list Timer :=
  match q with
  | [] => [t]
  | u :: q' =>
      if (due u <=? due t)%nat then u :: enqueue_timer t q' else t :: q
  end.

Definition setTimeout (cb : Callback) (ms : nat) (w : World) : World :=
  let t := {| due := now w + ms; delay := ms; callback := cb |} in
  emit (WaitBegun ms) (set_timers (enqueue_timer t (timers w)) w).

Definition queueMicrotask (k : Cont) (w : World) : World :=
  set_microtasks (microtasks w ++ [k]) w.

Definition restyle (f : Style → Style) (w : World) : World :=
  set_mainContent
    (match mainContent w with
     | Some el =>
         Some {| innerHTML := innerHTML el; style := f (style el); nodes := nodes el |}
     | None => None
     end) w.

(** [mainContent.innerHTML = m]: the old children are dropped and the
    markup creates fresh elements, numbered from [nextNode]. *)
Definition assign_innerHTML (m : Markup) (w : World) : World :=
  let fresh := list_to_set (seq (nextNode w) (animatableCount m)) in
  set_nextNode (nextNode w + animatableCount m)
    (set_mainContent
       (match mainContent w with
        | Some el => Some {| innerHTML := m; style := style el; nodes := fresh |}
        | None => None
        end) w).

(** [document.querySelectorAll('.animate-on-scroll')] *)
Definition animatable (w : World) : gset nat :=
  match mainContent w with
  | Some el => outerNodes h ∪ nodes el
  | None => outerNodes h
  end.

(** [updateNavigation(page)] *)
Definition updateNavigation (page : Page) (w : World) : World :=
  set_navLinks
    (map (λ l, {| data_page := data_page l;
                  active := match data_page l with
                            | Some p => String.eqb p page
                            | None => false
                            end |})
         (navLinks w)) w.

(** [await this.fadeOut(mainContent)]: the executor restyles the element
    and starts the 150 ms timer whose callback resolves the promise; an
    executor that throws rejects it, and the [await] resumes in a
    microtask. *)
Definition fadeOut (page : Page) (w : World) : World :=
  if throws h OpFadeOut
  then queueMicrotask (Rejected page (HostFault OpFadeOut)) w
  else
    setTimeout (ResolveFadeOut page) 150
      (restyle (λ _, {| opacity := "0";
                        transform := "translateY(20px)";
                        transition := "all 250ms cubic-bezier(0.4, 0.0, 0.2, 1.0)" |}) w).

(** [await this.fadeIn(mainContent)] *)
Definition fadeIn (page : Page) (w : World) : World :=
  if throws h OpFadeIn
  then queueMicrotask (Rejected page (HostFault OpFadeIn)) w
  else
    setTimeout (ResolveFadeIn page) 250
      (restyle (λ st, {| opacity := "1";
                         transform := "translateY(0)";
                         transition := transition st |}) w).

(** [setupScrollAnimations()]: disconnect the old observer, construct a
    new one, observe every animatable element.  The constructor is a free
    identifier: without it the [new] expression throws. *)
Definition setupScrollAnimations (w : World) : Result :=
  let w1 := set_animationObserver
              (match animationObserver w with
               | Some _ => Some ∅
               | None => None
               end) w in
  if hasIntersectionObserver h
  then Ok (emit ObserversArmed (set_animationObserver (Some (animatable w1)) w1))
  else Throw (ReferenceError "IntersectionObserver") w1.

(** [setupAnimations()]: the guarded entry point used by [setup]. *)
Definition setupAnimations (w : World) : Result :=
  if negb (hasIntersectionObserver h)
  then Ok (console_write (ConsoleWarn "IntersectionObserver not supported") w)
  else setupScrollAnimations w.

(** [setupLazyLoading()], reached through
    [setupPerformanceOptimizations()]: without native lazy loading it
    constructs an [IntersectionObserver] unconditionally. *)
Definition setupLazyLoading (w : World) : Result :=
  if hasNativeLazyLoading h then Ok w
  else if hasIntersectionObserver h then Ok w
  else Throw (ReferenceError "IntersectionObserver") w.

(** [smoothScrollTo(0)]: only the request is recorded. *)
Definition smoothScrollTo (w : World) : World := emit ScrollTop w.

(** [updatePageTitle(page)] *)
Definition updatePageTitle (page : Page) (w : World) : World :=
  emit (TitleSet (pageTitle page)) (set_title (pageTitle page) w).

(** [dispatchPageLoadEvent(page)]: the detail is
    [{ page, timestamp: Date.now() }]. *)
Definition dispatchPageLoadEvent (page : Page) (w : World) : World :=
  emit (PageLoaded page (now w)) w.

(** [finally { this.isLoading = false; }] *)
Definition finally (w : World) : World :=
  emit GuardCleared (set_isLoading false w).

(** [catch (error) { console.error(...); mainContent.innerHTML =
    this.getErrorContent(); }] followed by the [finally] block. *)
Definition catch_finally (e : Error) (w : World) : World :=
  finally
    (emit ErrorRendered
       (assign_innerHTML getErrorContent
          (console_write (ConsoleError "Error loading page:" (Some e)) w))).

(** The body of [loadPage] between the two [await]s. *)
Definition afterFadeOut (page : Page) (w : World) : World :=
  if throws h OpResolveContent
  then catch_finally (HostFault OpResolveContent) w
  else
    let content := getPageContent page in
    fadeIn page (emit (ContentReplaced content) (assign_innerHTML content w)).

(** The body of [loadPage] after the second [await]. *)
Definition afterFadeIn (page : Page) (w : World) : World :=
  match setupScrollAnimations w with
  | Ok w1 =>
      finally (dispatchPageLoadEvent page (updatePageTitle page (smoothScrollTo w1)))
  | Throw e w1 => catch_finally e w1
  end.

(** [loadPage(page, pushState = false)] up to its first suspension.  The
    second parameter is never read by the body. *)
Definition loadPage (page : Page) (pushState : bool) (w : World) : World :=
  if isLoading w then w
  else
    let w1 := emit (TransitionBegun page) (set_isLoading true w) in
    let w2 := set_currentPage page w1 in
    let w3 := updateNavigation page w2 in
    match mainContent w3 with
    | None =>
        let w4 := console_write
                    (ConsoleError "Main content container not found" None) w3 in
        emit GuardCleared (set_isLoading false (emit Aborted w4))
    | Some _ => fadeOut page w3
    end.

(** The canonical URL computed by [navigateTo]. *)
Definition urlFor (page : Page) : string :=
  if String.eqb page "home" then "/" else "/" +:+ page.

(** [history.pushState({ page }, '', url)]: the entry is added, unless
    the host refuses the URL. *)
Definition pushState (page : Page) (u : string) (w : World) : Result :=
  if refusesURL h u then Throw (SecurityError u) w
  else
    let e := {| state_page := page; url := u |} in
    Ok (emit (HistoryPushed e) (set_history (history w ++ [e]) w)).

(** [navigateTo(page)].  [loadPage] has run up to its first [await] when
    [pushState] is called; an exception of [pushState] leaves [navigateTo]
    and the listener that called it, with the transition started, no entry
    pushed and [gtag] not called. *)
Definition navigateTo (page : Page) (w : World) : World :=
  if isLoading w then w
  else
    let w1 := loadPage page true w in
    let u := urlFor page in
    match pushState page u w1 with
    | Throw _ w2 => w2
    | Ok w2 => if hasGtag h then emit (Gtag u) w2 else w2
    end.

(** [handleNavigation(event)]; [link] is
    [event.target.closest('[data-page]')] with its [dataset.page]. *)
Definition handleNavigation (link : option Page) (w : World) : World :=
  match link with
  | None => w
  | Some page =>
      if String.eqb page (currentPage w) || isLoading w then w
      else navigateTo page w
  end.

(** [handlePopState(event)]; [state] is [event.state] with its [page]. *)
Definition handlePopState (state : option Page) (w : World) : World :=
  let page := match state with Some p => p | None => "home" end in
  loadPage page false w.

(** [handleKeyboardNavigation(event)] *)
Definition handleKeyboardNavigation (altKey : bool) (key : string) (w : World) : World :=
  if altKey && String.leb "1" key && String.leb key "4" then
    let pages := ["home"; "about"; "projects"; "contact"] in
    match JS.parseInt key with
    | Some (S pageIndex) =>
        match pages !! pageIndex with
        | Some page => navigateTo page w
        | None => w
        end
    | _ => w
    end
  else w.

(** The callback of the observer built by [setupScrollAnimations]. *)
Definition unobserve (target : nat) (w : World) : World :=
  set_animationObserver
    (match animationObserver w with
     | Some ts => Some (ts ∖ {[target]})
     | None => None
     end) w.

Definition revealEntry (w : World) (entry : nat * bool) : World :=
  if entry.2
  then unobserve entry.1 (set_inView ({[entry.1]} ∪ inView w) w)
  else w.

Definition observerCallback (entries : list (nat * bool)) (w : World) : World :=
  foldl revealEntry w entries.

(** The browser reports intersection changes of the targets the live
    observer is watching, and of no other element. *)
Definition deliver (entries : list (nat * bool)) (w : World) : World :=
  match animationObserver w with
  | Some ts => observerCallback (filter (λ en, en.1 ∈ ts) entries) w
  | None => w
  end.

End App.

(** ** The event loop *)

Section EventLoop.

Variable h : Host.

(** Resuming [loadPage] where it was suspended. *)
Definition resume (k : Cont) (w : World) : World :=
  match k with
  | AfterFadeOut page => afterFadeOut h page w
  | AfterFadeIn page => afterFadeIn h page w
  | Rejected _ e => catch_finally e w
  end.

(** A bound on the microtasks a continuation can still cause: only the
    code after the fade-out can queue another one (a rejected fade-in). *)
Definition weight (k : Cont) : nat :=
  match k with
  | AfterFadeOut _ => 2
  | AfterFadeIn _ | Rejected _ _ => 1
  end.

Fixpoint drain (fuel : nat) (w : World) : World :=
  match fuel with
  | 0 => w
  | S fuel' =>
      match microtasks w with
      | [] => w
      | k :: ks => drain fuel' (resume k (set_microtasks ks w))
      end
  end.

(** The work still in the microtask queue. *)
Definition pending (w : World) : nat :=
  sum_list_with weight (microtasks w).

(** The microtask checkpoint at the end of every task. *)
Definition checkpoint (w : World) : World :=
  drain (pending w) w.

(** The timer callbacks of [fadeOut] and [fadeIn]. *)
Definition runCallback (t : Timer) (w : World) : World :=
  let w1 := emit (WaitElapsed (delay t)) w in
  match callback t with
  | ResolveFadeOut page => queueMicrotask (AfterFadeOut page) w1
  | ResolveFadeIn page =>
      queueMicrotask (AfterFadeIn page)
        (restyle (λ st, {| opacity := opacity st;
                           transform := transform st;
                           transition := EmptyString |}) w1)
  end.

(** The earliest timer fires, provided it is due. *)
Definition fireTimer (w : World) : World :=
  match timers w with
  | t :: ts =>
      if (due t <=? now w)%nat then runCallback t (set_timers ts w) else w
  | [] => w
  end.

Inductive Event :=
| Click (link : option Page)
| KeyDown (altKey : bool) (key : string)
| PopState (state : option Page)
| Call_navigateTo (page : Page)            (* window.app.navigateTo(page) *)
| Call_loadPage (page : Page) (pushState : bool)
| Intersection (entries : list (nat * bool))
| Elapse (ms : nat)
| TimerDue.

Definition handle (ev : Event) (w : World) : World :=
  match ev with
  | Click link => handleNavigation h link w
  | KeyDown altKey key => handleKeyboardNavigation h altKey key w
  | PopState state => handlePopState h state w
  | Call_navigateTo page => navigateTo h page w
  | Call_loadPage page ps => loadPage h page ps w
  | Intersection entries => deliver entries w
  | Elapse ms => set_now (now w + ms) w
  | TimerDue => fireTimer w
  end.

(** One task of the event loop. *)
Definition dispatch (w : World) (ev : Event) : World :=
  checkpoint (handle ev w).

Definition run (evs : list Event) (w : World) : World :=
  foldl dispatch w evs.

(** [setup()]: the listeners are the cases of [handle]; what remains is
    the guarded arming of the observer, the lazy-loading set-up that may
    throw out of [setup], and the initial [loadPage]. *)
Definition setup (initialPage : Page) (w : World) : World :=
  match setupAnimations h w with
  | Throw _ w1 => w1
  | Ok w1 =>
      match setupLazyLoading h w1 with
      | Throw _ w2 => w2
      | Ok w2 =>
          console_write (ConsoleLog "🚀 Modern Web App initialized")
            (loadPage h initialPage false w2)
      end
  end.

(** The world right after [new ModernWebApp()] ran its field
    initialisers, over a document with the given container, links and
    title, none of whose elements is revealed yet. *)
Definition construct (container : option Element) (links : list NavLink)
    (title0 : string) (firstNode clock : nat) : World :=
  {| currentPage := "home";
     isLoading := false;
     animationObserver := None;
     mainContent := container;
     navLinks := links;
     inView := ∅;
     nextNode := firstNode;
     title := title0;
     history := [];
     console := [];
     timers := [];
     microtasks := [];
     now := clock;
     trace := [] |}.

(** The first task: construction and [setup] on the page of the URL. *)
Definition boot (container : option Element) (links : list NavLink)
    (title0 : string) (firstNode clock : nat) (initialPage : Page) : World :=
  checkpoint (setup initialPage (construct container links title0 firstNode clock)).

(** The worlds the application can be in between two tasks. *)
Inductive reachable : World → Prop :=
| reachable_boot container links title0 firstNode clock initialPage :
    reachable (boot container links title0 firstNode clock initialPage)
| reachable_step w ev :
    reachable w → reachable (dispatch w ev).

End EventLoop.

(** A URL that starts with a slash names an authority, rather than a path
    on the origin of the document, when a second slash or a backslash
    follows the first; the URL parser drops tabs and newlines before it
    looks. *)
Definition isTabOrNewline (c : ascii) : bool :=
  Ascii.eqb c "009" || Ascii.eqb c "010" || Ascii.eqb c "013".

Fixpoint dropTabsAndNewlines (s : string) : string :=
  match s with
  | EmptyString => EmptyString
  | String c s' =>
      if isTabOrNewline c then dropTabsAndNewlines s'
      else String c (dropTabsAndNewlines s')
  end.

Definition namesAuthority (u : string) : bool :=
  match dropTabsAndNewlines u with
  | String "/" (String c _) => Ascii.eqb c "/" || Ascii.eqb c "\"
  | _ => false
  end.

(** A host with every capability and no fault, serving the document over
    HTTP from an origin that no URL of the application names: the paths on
    that origin are accepted by [history.pushState], the URLs that name an
    authority are refused. *)
Definition modernHost : Host :=
  {| hasIntersectionObserver := true;
     hasNativeLazyLoading := true;
     hasGtag := false;
     throws := λ _, false;
     refusesURL := namesAuthority;
     outerNodes := ∅ |}.

(** An older browser: neither [IntersectionObserver] nor native lazy
    loading of images. *)
Definition legacyHost : Host :=
  {| hasIntersectionObserver := false;
     hasNativeLazyLoading := false;
     hasGtag := false;
     throws := λ _, false;
     refusesURL := namesAuthority;
     outerNodes := ∅ |}.

Definition shellContainer : Element :=
  {| innerHTML := ShellMarkup;
     style := {| opacity := EmptyString; transform := EmptyString; transition := EmptyString |};
     nodes := ∅ |}.

Definition shellTitle : string := "Birtney666".

(** * Vocabulary of the properties *)

(** ** Schedules *)

(** Time passes and the timers fire: long enough for both waits of a
    transition. *)
Definition settle : list Event := [Elapse 150; TimerDue; Elapse 250; TimerDue].

(** The events that are a navigation request of the user; the others are
    the passage of time, timers, intersection reports, [popstate] and direct
    calls of [loadPage]. *)
Definition userNavigation (ev : Event) : bool :=
  match ev with
  | Click _ | KeyDown _ _ | Call_navigateTo _ => true
  | _ => false
  end.

(** Something in the [try] block of [loadPage] throws on this host. *)
Definition faulty (h : Host) : bool :=
  throws h OpFadeOut || throws h OpResolveContent || throws h OpFadeIn
  || negb (hasIntersectionObserver h).

(** ** The order of the effects of a transition *)

(** Where a transition stands, as far as the log tells: no transition
    ([Quiet]), the fade-out wait running since [since], the wait elapsed
    ([FadedOut]), the content replaced ([Swapped]), the fade-in wait running,
    and the fade-in wait elapsed ([FadedIn]). *)
Inductive Phase :=
| Quiet
| FadingOut (since : nat)
| FadedOut
| Swapped
| FadingIn (since : nat)
| FadedIn.

(** The order the specification asks for, as a monitor over the log: the
    150 ms wait elapses (no earlier than 150 ms after it began) before the
    content is replaced, the content is replaced before the 250 ms wait
    begins, and that wait elapses (no earlier than 250 ms after it began)
    before the observers are armed again.  The error payload of the
    [catch] block is never written while a wait is running.  Outside a
    transition the observers may be armed at any time; the end of a
    transition, on any path, returns the monitor to [Quiet]. *)
Definition observe (ph : Phase) (ev : nat * Label) : option Phase :=
  let '(t, l) := ev in
  match l with
  | WaitBegun ms =>
      match ph with
      | Quiet => if decide (ms = 150) then Some (FadingOut t) else None
      | Swapped => if decide (ms = 250) then Some (FadingIn t) else None
      | _ => None
      end
  | WaitElapsed ms =>
      match ph with
      | FadingOut t0 =>
          if decide (ms = 150 ∧ (t0 + 150 ≤ t)%nat) then Some FadedOut else None
      | FadingIn t1 =>
          if decide (ms = 250 ∧ (t1 + 250 ≤ t)%nat) then Some FadedIn else None
      | _ => None
      end
  | ContentReplaced _ =>
      match ph with
      | FadedOut => Some Swapped
      | _ => None
      end
  | ObserversArmed =>
      match ph with
      | Quiet | FadedIn => Some ph
      | _ => None
      end
  | ErrorRendered =>
      match ph with
      | FadingOut _ | FadingIn _ => None
      | _ => Some ph
      end
  | GuardCleared => Some Quiet
  | TransitionBegun _ | ScrollTop | TitleSet _ | PageLoaded _ _
  | HistoryPushed _ | Gtag _ | Aborted => Some ph
  end.

Fixpoint monitor (ph : Phase) (tr : list (nat * Label)) : option Phase :=
  match tr with
  | [] => Some ph
  | ev :: tr' =>
      match observe ph ev with
      | Some ph' => monitor ph' tr'
      | None => None
      end
  end.



(** The log of [navigateTo(page)] and the transition it starts. *)
Definition navigation_log (h : Host) (page : Page) (t : nat) : list (nat * Label) :=
  ([ (t, TransitionBegun page);
     (t, WaitBegun 150);
     (t, HistoryPushed {| state_page := page; url := urlFor page |}) ]
   ++ (if hasGtag h then [(t, Gtag (urlFor page))] else [])
   ++ [ (t + 150, WaitElapsed 150);
        (t + 150, ContentReplaced (getPageContent page));
        (t + 150, WaitBegun 250);
        (t + 150 + 250, WaitElapsed 250);
        (t + 150 + 250, ObserversArmed);
        (t + 150 + 250, ScrollTop);
        (t + 150 + 250, TitleSet (pageTitle page));
        (t + 150 + 250, PageLoaded page (t + 150 + 250));
        (t + 150 + 250, GuardCleared) ])%list.

(** ** The invariant of the event loop *)

(** What the fields say about the phase between two tasks: the guard is
    set exactly while one timer of the transition is pending, and no
    continuation is left in the microtask queue. *)
Inductive consistent (w : World) : Phase → Prop :=
| consistent_quiet :
    isLoading w = false → timers w = [] → microtasks w = [] →
    consistent w Quiet
| consistent_out page t0 :
    isLoading w = true → microtasks w = [] →
    timers w = [{| due := t0 + 150; delay := 150; callback := ResolveFadeOut page |}] →
    (t0 ≤ now w)%nat →
    consistent w (FadingOut t0)
| consistent_in page t1 :
    isLoading w = true → microtasks w = [] →
    timers w = [{| due := t1 + 250; delay := 250; callback := ResolveFadeIn page |}] →
    (t1 ≤ now w)%nat →
    consistent w (FadingIn t1).

Definition Inv (w : World) : Prop :=
  ∃ ph, monitor Quiet (trace w) = Some ph ∧ consistent w ph.

(** ** Frames *)

(** What the observer callback leaves alone: everything but the revealed
    set and the observer. *)
Definition frame (w w' : World) : Prop :=
  currentPage w' = currentPage w ∧ isLoading w' = isLoading w ∧
  mainContent w' = mainContent w ∧ title w' = title w ∧
  history w' = history w ∧ console w' = console w ∧
  timers w' = timers w ∧ microtasks w' = microtasks w ∧
  now w' = now w ∧ trace w' = trace w.

(** What every step other than [pushState] and the observer callback leaves
    alone: the pushed entries and the revealed set. *)
Definition keeps (w w' : World) : Prop :=
  history w' = history w ∧ inView w' = inView w.

(** ** Outcomes of a transition *)

(** A transition started from [w0] has ended in [w']. *)
Definition ended (h : Host) (w0 w' : World) : Prop :=
  isLoading w' = false ∧ timers w' = [] ∧ microtasks w' = [] ∧
  (faulty h = true → is_Some (mainContent w0) →
   innerHTML <$> mainContent w' = Some getErrorContent).

(** The transition started by [navigateTo] has completed in [w2]. *)
Definition completed (h : Host) (page : Page) (w w2 : World) : Prop :=
  isLoading w2 = false ∧ currentPage w2 = page ∧
  history w2 = (history w ++ [{| state_page := page; url := urlFor page |}])%list ∧
  title w2 = pageTitle page ∧
  innerHTML <$> mainContent w2 = Some (getPageContent page) ∧
  trace w2 = (trace w ++ navigation_log h page (now w))%list.

(** The container shows the error payload after a transition started from
    [w]: the catch block ran because the observer constructor is missing,
    the title was never updated, and the guard is clear. *)
Definition shows_error (w w' : World) : Prop :=
  innerHTML <$> mainContent w' = Some getErrorContent ∧
  console w' = (console w ++ [ConsoleError "Error loading page:"
                                (Some (ReferenceError "IntersectionObserver"))])%list ∧
  title w' = title w ∧
  isLoading w' = false.

(** ** Navigation state across tasks *)

(** A link is highlighted for [page] when it carries the class [active]
    exactly if its [data-page] is [page]. *)
Definition highlights (page : Page) (l : NavLink) : Prop :=
  active l = bool_decide (data_page l = Some page).

(** The highlighted links are those of the current page. *)
Definition nav_synced (w : World) : Prop :=
  Forall (highlights (currentPage w)) (navLinks w).

(** What a step may do to the links: never add, drop or retarget one, and
    either leave them and the current page alone or highlight them for the
    new current page. *)
Definition nav_step (w w' : World) : Prop :=
  map data_page (navLinks w') = map data_page (navLinks w) ∧
  ((currentPage w' = currentPage w ∧ navLinks w' = navLinks w) ∨ nav_synced w').

(** The events that ask for a page: clicks, shortcuts, [popstate] and the
    direct calls. *)
Definition request (ev : Event) : bool :=
  match ev with
  | Click _ | KeyDown _ _ | PopState _ | Call_navigateTo _ | Call_loadPage _ _ => true
  | _ => false
  end.

(** The [pageLoaded] events dispatched so far. *)
Definition isPageLoaded (x : nat * Label) : bool :=
  match x.2 with
  | PageLoaded _ _ => true
  | _ => false
  end.

Definition pageLoads (w : World) : list (nat * Label) :=
  List.filter isPageLoaded (trace w).

(** Where a transition to [page] that started in [w0] stands in [w], on a
    host where nothing fails: the fade-out wait is running and the
    container holds what it held in [w0]; or the fade-in wait is running
    and the container holds the payload of [page]; or the transition has
    ended.  The current page is [page] from the start; the title and the
    [pageLoaded] events are those of [w0] until the end. *)
Inductive staged (page : Page) (w0 w : World) : Prop :=
| staged_out d dl :
    isLoading w = true → microtasks w = [] →
    timers w = [{| due := d; delay := dl; callback := ResolveFadeOut page |}] →
    currentPage w = page →
    innerHTML <$> mainContent w = innerHTML <$> mainContent w0 →
    title w = title w0 → pageLoads w = pageLoads w0 →
    staged page w0 w
| staged_in d dl :
    isLoading w = true → microtasks w = [] →
    timers w = [{| due := d; delay := dl; callback := ResolveFadeIn page |}] →
    currentPage w = page →
    innerHTML <$> mainContent w = Some (getPageContent page) →
    title w = title w0 → pageLoads w = pageLoads w0 →
    staged page w0 w
| staged_done t :
    isLoading w = false → microtasks w = [] → timers w = [] →
    currentPage w = page →
    innerHTML <$> mainContent w = Some (getPageContent page) →
    title w = pageTitle page →
    pageLoads w = (pageLoads w0 ++ [(t, PageLoaded page t)])%list →
    staged page w0 w.

(** ** The container and the log *)




(** What a step leaves alone on a host without [IntersectionObserver]: the
    title, the [pageLoaded] events, and the absence of an observer. *)
Definition silent (w w' : World) : Prop :=
  title w' = title w ∧ pageLoads w' = pageLoads w ∧
  (animationObserver w = None → animationObserver w' = None).

(** The inline style of the container once a fade-in has completed. *)
Definition visible : Style :=
  {| opacity := "1"; transform := "translateY(0)"; transition := EmptyString |}.

(** What the document shows between two tasks on a host where nothing
    fails: at rest the container holds the payload of [currentPage] and is
    fully visible, the title is that page's, and the observer watches only
    elements that are in the document; during a transition the one pending
    timer belongs to [currentPage], and from the swap on the container
    holds its payload and fades in. *)
Inductive shown (h : Host) (w : World) : Prop :=
| shown_idle el ts :
    isLoading w = false → timers w = [] → microtasks w = [] →
    mainContent w = Some el → innerHTML el = getPageContent (currentPage w) →
    style el = visible →
    title w = pageTitle (currentPage w) →
    animationObserver w = Some ts → ts ⊆ outerNodes h ∪ nodes el →
    shown h w
| shown_out el d dl :
    isLoading w = true → microtasks w = [] →
    timers w = [{| due := d; delay := dl; callback := ResolveFadeOut (currentPage w) |}] →
    mainContent w = Some el →
    shown h w
| shown_in el d dl easing :
    isLoading w = true → microtasks w = [] →
    timers w = [{| due := d; delay := dl; callback := ResolveFadeIn (currentPage w) |}] →
    mainContent w = Some el → innerHTML el = getPageContent (currentPage w) →
    style el = {| opacity := "1"; transform := "translateY(0)"; transition := easing |} →
    shown h w.

(** The targets an observer report says are intersecting. *)
Definition intersecting (entries : list (nat * bool)) : gset nat :=
  list_to_set (map fst (List.filter snd entries)).

(** * The rest of the script *)

(** ** The initial page *)

Module JSString.

(** [s.split(sep)] for a separator of one character: the segments between
    the separators, at least one.  The strings of this file are sequences
    of bytes; [split] on ['/'] and [replace] of ['.html'] cut a UTF-8
    string where they cut the UTF-16 string of the engine, both patterns
    being ASCII. *)
Fixpoint split (sep : ascii) (s : string) : list string :=
  match s with
  | EmptyString => [EmptyString]
  | String c s' =>
      if Ascii.eqb c sep then EmptyString :: split sep s'
      else match split sep s' with
           | seg :: rest => String c seg :: rest
           | [] => [String c EmptyString]
           end
  end.

(** [array.pop()] of a non-empty array, as an expression: its last element. *)
Definition pop (segments : list string) : string := List.last segments EmptyString.

Fixpoint skip (n : nat) (s : string) : string :=
  match n, s with
  | S n', String _ s' => skip n' s'
  | _, _ => s
  end.

(** [s.replace(pattern, replacement)] with a string pattern: the first
    occurrence only. *)
Fixpoint replace (pattern replacement s : string) {struct s} : string :=
  if String.prefix pattern s
  then replacement +:+ skip (String.length pattern) s
  else match s with
       | EmptyString => EmptyString
       | String c s' => String c (replace pattern replacement s')
       end.

(** [s.includes(pattern)] *)
Fixpoint includes (pattern s : string) {struct s} : bool :=
  String.prefix pattern s ||
  match s with
  | EmptyString => false
  | String _ s' => includes pattern s'
  end.

(** The character occurs in the string. *)
Fixpoint has (c : ascii) (s : string) : bool :=
  match s with
  | EmptyString => false
  | String d s' => Ascii.eqb d c || has c s'
  end.

End JSString.

(** [getPageFromURL()], as a function of [window.location.pathname]. *)
Definition getPageFromURL (pathname : string) : Page :=
  let segment := JSString.pop (JSString.split "/" pathname) in
  let stripped := JSString.replace ".html" EmptyString segment in
  let page := if String.eqb stripped EmptyString then "home" else stripped in
  if String.eqb page "index" then "home" else page.

(** The last path segments that [getPageFromURL] returns as they are: not
    empty, without a slash, without ['.html'], and other than ['index']. *)
Definition returnedAsIs (segment : string) : Prop :=
  JSString.has "/" segment = false ∧ JSString.includes ".html" segment = false ∧
  segment ≠ EmptyString ∧ segment ≠ "index".

(** ** Construction of the application *)

(** What a property of the instance holds, as far as [bind] and a call
    can tell. *)
Inductive Slot :=
| Datum
| Method (name : string)
| BoundMethod (name : string).

(** The own properties of [this], in the order they were created. *)
Definition Instance := list (string * Slot).

Inductive Exception :=
| TypeError (message : string)
| Propagated (e : Error).

(** The methods declared in the body of [class ModernWebApp]. *)
Definition ModernWebApp_methods : list string :=
  [ "constructor"; "init"; "setup"; "getPageFromURL"; "setupNavigation";
    "handleNavigation"; "handlePopState"; "handleKeyboardNavigation";
    "navigateTo"; "loadPage"; "updateNavigation"; "fadeOut"; "fadeIn";
    "getPageContent"; "getHomeContent"; "getAboutContent";
    "getProjectsContent"; "getProjectCards"; "getContactContent";
    "get404Content"; "getErrorContent"; "setupScrollEffects";
    "setupAnimations"; "setupScrollAnimations"; "setupMobileMenu";
    "handleMobileMenu"; "closeMobileMenu"; "smoothScrollTo";
    "updatePageTitle"; "dispatchPageLoadEvent";
    "setupPerformanceOptimizations"; "preloadCriticalResources";
    "setupLazyLoading"; "handleResize" ].

Fixpoint ownProperty (this : Instance) (name : string) : option Slot :=
  match this with
  | [] => None
  | (k, v) :: rest => if String.eqb k name then Some v else ownProperty rest name
  end.

(** [this[name] = v] *)
Fixpoint assign (name : string) (v : Slot) (this : Instance) : Instance :=
  match this with
  | [] => [(name, v)]
  | (k, u) :: rest =>
      if String.eqb k name then (k, v) :: rest else (k, u) :: assign name v rest
  end.

(** [this[name]]: the own properties, then the methods of the class, then
    [Object.prototype]; [None] is [undefined]. *)
Definition member (methods : list string) (this : Instance) (name : string) : option Slot :=
  match ownProperty this name with
  | Some v => Some v
  | None =>
      if existsb (String.eqb name) methods then Some (Method name)
      else if String.eqb name "__proto__" then Some Datum
      else if existsb (String.eqb name) JS.Object_prototype then Some (Method name)
      else None
  end.

(** [this.name = this.name.bind(this)] *)
Definition bindMethod (methods : list string) (name : string) (this : Instance)
    : Instance + Exception :=
  match member methods this name with
  | None => inr (TypeError "Cannot read properties of undefined (reading 'bind')")
  | Some Datum => inr (TypeError ("this." +:+ name +:+ ".bind is not a function"))
  | Some (Method m) | Some (BoundMethod m) => inl (assign name (BoundMethod m) this)
  end.

(** The [bind] statements in order: the instance as the last statement that
    ran left it, and what the first failing one threw. *)
Fixpoint bindAll (methods : list string) (names : list string) (this : Instance)
    : Instance * option Exception :=
  match names with
  | [] => (this, None)
  | name :: rest =>
      match bindMethod methods name this with
      | inl this' => bindAll methods rest this'
      | inr e => (this, Some e)
      end
  end.

(** The field assignments and the [bind] statements of the constructor, in
    order. *)
Definition constructor_fields : Instance :=
  [ ("currentPage", Datum); ("isLoading", Datum); ("animationObserver", Datum) ].

Definition constructor_binds : list string :=
  [ "handleNavigation"; "handlePopState"; "handleMobileMenu"; "handleScroll" ].

(** The document the script is loaded into. *)
Record Document := {
  readyStateLoading : bool;        (* document.readyState === 'loading' *)
  locationPathname : string;       (* window.location.pathname *)
  mainElement : option Element;    (* #main-content *)
  linkElements : list NavLink;
  titleText : string;              (* document.title *)
  nodeCounter : nat;
  timeOrigin : nat
}.

(** What [setup()] throws, if it throws. *)
Definition setup_throws (h : Host) (w : World) : option Error :=
  match setupAnimations h w with
  | Throw e _ => Some e
  | Ok w1 =>
      match setupLazyLoading h w1 with
      | Throw e _ => Some e
      | Ok _ => None
      end
  end.

(** What the top level of the script has done when it ends. *)
Record Loaded := {
  instance : option Instance;      (* the object the constructor was building *)
  window_app : option Instance;    (* window.app *)
  window_utils : bool;             (* window.utils is defined *)
  globalHandlers : list string;    (* the listeners of the last two statements *)
  deferredSetup : bool;            (* the DOMContentLoaded listener of init() *)
  started : option World;          (* the world setup() left, if it ran *)
  uncaught : option Exception
}.

(** The statements after [new ModernWebApp()] at the top level. *)
Definition exported (this : Instance) (deferred : bool) (w : option World) : Loaded :=
  {| instance := Some this;
     window_app := Some this;
     window_utils := true;
     globalHandlers := ["error"; "unhandledrejection"];
     deferredSetup := deferred;
     started := w;
     uncaught := None |}.

Definition aborted (this : Instance) (w : option World) (e : Exception) : Loaded :=
  {| instance := Some this;
     window_app := None;
     window_utils := false;
     globalHandlers := [];
     deferredSetup := false;
     started := w;
     uncaught := Some e |}.

(** The script from [const app = new ModernWebApp()] on: the constructor,
    [init()], [setup()] when the document is already parsed, and, if
    nothing was thrown, the rest of the top level. *)
Definition script (methods : list string) (h : Host) (doc : Document) : Loaded :=
  match bindAll methods constructor_binds constructor_fields with
  | (this, Some e) => aborted this None e
  | (this, None) =>
      match member methods this "init" with
      | None | Some Datum => aborted this None (TypeError "this.init is not a function")
      | Some _ =>
          if readyStateLoading doc then exported this true None
          else
            let w0 := construct (mainElement doc) (linkElements doc) (titleText doc)
                        (nodeCounter doc) (timeOrigin doc) in
            let w := boot h (mainElement doc) (linkElements doc) (titleText doc)
                       (nodeCounter doc) (timeOrigin doc) (getPageFromURL (locationPathname doc)) in
            match setup_throws h w0 with
            | Some e => aborted this (Some w) (Propagated e)
            | None => exported this false (Some w)
            end
      end
  end.

(** ** The navbar scroll effect *)

(** The closure of [setupScrollEffects()] and what it reads and writes. *)
Record Scroller := {
  isScrolling : bool;              (* the variable of that name *)
  frameRequests : nat;             (* callbacks given to requestAnimationFrame, not yet run *)
  pageYOffset : QArith_base.Q;     (* window.pageYOffset *)
  navbar : option bool             (* .navbar, if there is one: has it class 'scrolled' *)
}.

(** [setupScrollEffects()] over a document with that navbar, scrolled to
    that offset. *)
Definition setupScrollEffects (bar : option bool) (y : QArith_base.Q) : Scroller :=
  {| isScrolling := false; frameRequests := 0; pageYOffset := y; navbar := bar |}.

(** The listener [handleScroll]. *)
Definition handleScroll (s : Scroller) : Scroller :=
  if isScrolling s then s
  else {| isScrolling := true;
          frameRequests := S (frameRequests s);
          pageYOffset := pageYOffset s;
          navbar := navbar s |}.

(** The callback given to [requestAnimationFrame]: [scrollTop > 50]
    decides the class; [navbar?.] does nothing without a navbar. *)
Definition frameCallback (s : Scroller) : Scroller :=
  {| isScrolling := false;
     frameRequests := frameRequests s;
     pageYOffset := pageYOffset s;
     navbar := (λ _, negb (QArith_base.Qle_bool (pageYOffset s) (QArith_base.inject_Z 50)))
                 <$> navbar s |}.

(** The browser runs the callbacks requested since the last frame. *)
Definition animationFrame (s : Scroller) : Scroller :=
  Nat.iter (frameRequests s) frameCallback
    {| isScrolling := isScrolling s;
       frameRequests := 0;
       pageYOffset := pageYOffset s;
       navbar := navbar s |}.

Inductive ScrollEvent :=
| ScrollTo (y : QArith_base.Q)     (* the offset changes and 'scroll' is dispatched *)
| AnimationFrame.

Definition scroll_step (s : Scroller) (ev : ScrollEvent) : Scroller :=
  match ev with
  | ScrollTo y =>
      handleScroll {| isScrolling := isScrolling s;
                      frameRequests := frameRequests s;
                      pageYOffset := y;
                      navbar := navbar s |}
  | AnimationFrame => animationFrame s
  end.

(** Between two events the flag is set exactly while one callback is
    requested. *)
Definition scroll_inv (s : Scroller) : Prop :=
  (isScrolling s = true ∧ frameRequests s = 1) ∨
  (isScrolling s = false ∧ frameRequests s = 0).

(** ** The mobile menu *)

(** The content of the toggle's [svg]: what the page shipped, the three
    lines of the closed menu, or the two of the open one. *)
Inductive Icon := ShippedIcon | MenuLines | CloseLines.

Record ToggleButton := {
  aria_expanded : option string;   (* the attribute, if set *)
  svg : option Icon                (* toggle.querySelector('svg') *)
}.

Record Menu := {
  toggle : option ToggleButton;    (* .navbar-toggle *)
  nav : option bool;               (* .navbar-nav: has it class 'active' *)
  menuConsole : list LogLine
}.

Inductive MenuResult :=
| Done (m : Menu)
| Raised (e : Exception) (m : Menu).

Definition menu_of (r : MenuResult) : Menu :=
  match r with
  | Done m | Raised _ m => m
  end.

(** [handleMobileMenu()] *)
Definition handleMobileMenu (m : Menu) : MenuResult :=
  match toggle m with
  | None => Raised (TypeError "Cannot read properties of null (reading 'getAttribute')") m
  | Some t =>
      let isExpanded := bool_decide (aria_expanded t = Some "true") in
      let expanded' := Some (if isExpanded then "false" else "true") in
      match nav m with
      | None =>
          Raised (TypeError "Cannot read properties of null (reading 'classList')")
            {| toggle := Some {| aria_expanded := expanded'; svg := svg t |};
               nav := None;
               menuConsole := menuConsole m |}
      | Some isActive =>
          let active' := negb isActive in
          match svg t with
          | None =>
              Raised (TypeError "Cannot set properties of null (setting 'innerHTML')")
                {| toggle := Some {| aria_expanded := expanded'; svg := None |};
                   nav := Some active';
                   menuConsole := menuConsole m |}
          | Some _ =>
              Done {| toggle := Some {| aria_expanded := expanded';
                                        svg := Some (if active' then CloseLines
                                                     else MenuLines) |};
                      nav := Some active';
                      menuConsole := menuConsole m |}
          end
      end
  end.

(** [closeMobileMenu()] *)
Definition closeMobileMenu (m : Menu) : MenuResult :=
  match toggle m, nav m with
  | Some t, Some _ =>
      match svg t with
      | None =>
          Raised (TypeError "Cannot set properties of null (setting 'innerHTML')")
            {| toggle := Some {| aria_expanded := Some "false"; svg := None |};
               nav := Some false;
               menuConsole := menuConsole m |}
      | Some _ =>
          Done {| toggle := Some {| aria_expanded := Some "false"; svg := Some MenuLines |};
                  nav := Some false;
                  menuConsole := menuConsole m |}
      end
  | _, _ => Done m
  end.

(** [handleResize()] *)
Definition handleResize (m : Menu) : MenuResult :=
  match closeMobileMenu m with
  | Done m' =>
      Done {| toggle := toggle m';
              nav := nav m';
              menuConsole := (menuConsole m' ++ [ConsoleLog "Window resized"])%list |}
  | Raised e m' => Raised e m'
  end.

(** [setupMobileMenu()] adds its three listeners only when both elements
    exist. *)
Definition menuWired (m : Menu) : bool :=
  bool_decide (is_Some (toggle m)) && bool_decide (is_Some (nav m)).

Inductive MenuEvent :=
| ToggleClick                      (* a click on .navbar-toggle *)
| NavClick (onLink : bool)         (* a click inside .navbar-nav; on a .navbar-link? *)
| MenuKey (key : string)           (* keydown *)
| ResizeSettled.                   (* the debounced resize callback *)

(** One listener run; a listener that throws leaves what it had done. *)
Definition menu_step (m : Menu) (ev : MenuEvent) : Menu :=
  match ev with
  | ToggleClick => if menuWired m then menu_of (handleMobileMenu m) else m
  | NavClick onLink =>
      if menuWired m && onLink then menu_of (closeMobileMenu m) else m
  | MenuKey key =>
      if menuWired m && String.eqb key "Escape" then menu_of (closeMobileMenu m) else m
  | ResizeSettled => menu_of (handleResize m)
  end.

(** The attribute, the class and the icon agree. *)
Definition menu_coherent (m : Menu) : Prop :=
  ∃ isActive,
    nav m = Some isActive ∧
    toggle m = Some {| aria_expanded := Some (if isActive then "true" else "false");
                       svg := Some (if isActive then CloseLines else MenuLines) |}.

(** The button announces the opposite of what the class shows. *)
Definition menu_mismatch (m : Menu) : Prop :=
  ∃ t isActive,
    toggle m = Some t ∧ nav m = Some isActive ∧
    bool_decide (aria_expanded t = Some "true") = negb isActive.

(** ** Debouncing and throttling *)

Record Scheduled (A : Type) := {
  timerId : nat;
  fireAt : nat;
  payload : A
}.

Arguments timerId {A} _.
Arguments fireAt {A} _.
Arguments payload {A} _.

(** [clearTimeout(id)]: nothing happens for [undefined] or an id that is
    not live. *)
Definition clearTimeout {A : Type} (id : option nat) (q : list (Scheduled A))
    : list (Scheduled A) :=
  match id with
  | Some i => List.filter (λ t, negb (timerId t =? i)%nat) q
  | None => q
  end.

(** The closure of a debounced function: [utils.debounce(func, wait)], and
    the resize listener of [setupPerformanceOptimizations()] with its
    variable [resizeTimer]. *)
Record Debounced (A : Type) := {
  timeout : option nat;                (* the variable holding the last timer id *)
  scheduled : list (Scheduled A);      (* live timers, each with the args of its call *)
  nextTimerId : nat;
  debounceClock : nat;
  invocations : list (nat * A)         (* func(...args): when and with what *)
}.

Arguments timeout {A} _.
Arguments scheduled {A} _.
Arguments nextTimerId {A} _.
Arguments debounceClock {A} _.
Arguments invocations {A} _.

Inductive DebounceEvent (A : Type) :=
| DCall (args : A)
| DElapse (ms : nat)
| DTimerDue.

Arguments DCall {A} _.
Arguments DElapse {A} _.
Arguments DTimerDue {A}.

Section Debounce.

Context {A : Type}.

(** [wait], and whether the timer callback starts with
    [clearTimeout(timeout)]: [later] of [utils.debounce] does, the resize
    callback does not. *)
Variable wait : nat.
Variable clearsFirst : bool.

Definition debounce : Debounced A :=
  {| timeout := None; scheduled := []; nextTimerId := 0; debounceClock := 0;
     invocations := [] |}.

(** [executedFunction(...args)] *)
Definition executedFunction (args : A) (s : Debounced A) : Debounced A :=
  let id := nextTimerId s in
  {| timeout := Some id;
     scheduled := (clearTimeout (timeout s) (scheduled s)
                   ++ [{| timerId := id; fireAt := debounceClock s + wait; payload := args |}])%list;
     nextTimerId := S id;
     debounceClock := debounceClock s;
     invocations := invocations s |}.

(** [later], run by a timer that the browser has taken off its list. *)
Definition later (args : A) (s : Debounced A) : Debounced A :=
  {| timeout := timeout s;
     scheduled := if clearsFirst then clearTimeout (timeout s) (scheduled s)
                  else scheduled s;
     nextTimerId := nextTimerId s;
     debounceClock := debounceClock s;
     invocations := (invocations s ++ [(debounceClock s, args)])%list |}.

(** The oldest timer that is due fires. *)
Fixpoint takeDue (now : nat) (q : list (Scheduled A))
    : option (Scheduled A * list (Scheduled A)) :=
  match q with
  | [] => None
  | t :: q' =>
      if (fireAt t <=? now)%nat then Some (t, q')
      else match takeDue now q' with
           | Some (u, rest) => Some (u, t :: rest)
           | None => None
           end
  end.

Definition debounce_step (s : Debounced A) (ev : DebounceEvent A) : Debounced A :=
  match ev with
  | DCall args => executedFunction args s
  | DElapse ms =>
      {| timeout := timeout s; scheduled := scheduled s; nextTimerId := nextTimerId s;
         debounceClock := debounceClock s + ms; invocations := invocations s |}
  | DTimerDue =>
      match takeDue (debounceClock s) (scheduled s) with
      | Some (t, rest) =>
          later (payload t)
            {| timeout := timeout s; scheduled := rest; nextTimerId := nextTimerId s;
               debounceClock := debounceClock s; invocations := invocations s |}
      | None => s
      end
  end.

(** Between two events at most one timer is live, the one [timeout] names. *)
Definition debounce_inv (s : Debounced A) : Prop :=
  scheduled s = [] ∨
  ∃ t, scheduled s = [t] ∧ timeout s = Some (timerId t).

End Debounce.

(** The closure of [utils.throttle(func, limit)]. *)
Record Throttled (A : Type) := {
  inThrottle : bool;
  resets : list nat;                   (* due times of the pending reset timers *)
  throttleClock : nat;
  passed : list (nat * A)              (* func.apply(context, args): when and with what *)
}.

Arguments inThrottle {A} _.
Arguments resets {A} _.
Arguments throttleClock {A} _.
Arguments passed {A} _.

Section Throttle.

Context {A : Type}.
Variable limit : nat.

Definition throttle : Throttled A :=
  {| inThrottle := false; resets := []; throttleClock := 0; passed := [] |}.

(** The function [throttle] returns. *)
Definition throttled (args : A) (s : Throttled A) : Throttled A :=
  if inThrottle s then s
  else {| inThrottle := true;
          resets := (resets s ++ [throttleClock s + limit])%list;
          throttleClock := throttleClock s;
          passed := (passed s ++ [(throttleClock s, args)])%list |}.

Fixpoint takeReset (now : nat) (q : list nat) : option (list nat) :=
  match q with
  | [] => None
  | d :: q' =>
      if (d <=? now)%nat then Some q'
      else match takeReset now q' with
           | Some rest => Some (d :: rest)
           | None => None
           end
  end.

Definition throttle_step (s : Throttled A) (ev : DebounceEvent A) : Throttled A :=
  match ev with
  | DCall args => throttled args s
  | DElapse ms =>
      {| inThrottle := inThrottle s; resets := resets s;
         throttleClock := throttleClock s + ms; passed := passed s |}
  | DTimerDue =>
      match takeReset (throttleClock s) (resets s) with
      | Some rest =>
          {| inThrottle := false; resets := rest;
             throttleClock := throttleClock s; passed := passed s |}
      | None => s
      end
  end.

(** Consecutive invocations are at least [limit] apart. *)
Fixpoint spaced (l : list (nat * A)) : Prop :=
  match l with
  | x :: (y :: _) as rest => (x.1 + limit ≤ y.1)%nat ∧ spaced rest
  | _ => True
  end.

(** The flag is set exactly while its reset timer is pending, which is due
    [limit] after the last invocation; with the flag clear that much time
    has passed. *)
Definition throttle_inv (s : Throttled A) : Prop :=
  spaced (passed s) ∧
  match last (passed s) with
  | None => inThrottle s = false ∧ resets s = []
  | Some x =>
      (x.1 ≤ throttleClock s)%nat ∧
      if inThrottle s then resets s = [x.1 + limit]
      else resets s = [] ∧ (x.1 + limit ≤ throttleClock s)%nat
  end.

End Throttle.

(** * Properties *)

(** ** Content resolution and titles *)

Lemma eqb_false_of_ne (a b : string) : a ≠ b → String.eqb a b = false.
Proof. intros H. by apply String.eqb_neq. Qed.

Lemma not_enumerated_constructor : ¬ enumerated "constructor".
Proof. unfold enumerated. intros [?|[?|[?|?]]]; discriminate. Qed.

Lemma own_titles_None (page : Page) :
  ¬ enumerated page → JS.own titles page = None.
Proof.
  intros H. unfold enumerated in H. unfold titles, JS.own.
  repeat match goal with
         | |- context [String.eqb ?k page] =>
             destruct (String.eqb_spec k page) as [<-|_]; [exfalso; naive_solver|]
         end.
  reflexivity.
Qed.

(** Outside the four pages and the inherited property names the title falls
    back to the home title. *)
Lemma pageTitle_fallback (page : Page) :
  ¬ enumerated page →
  existsb (String.eqb page) JS.Object_prototype = false →
  pageTitle page = homeTitle.
Proof.
  intros Hout Hproto. unfold pageTitle, JS.get.
  rewrite own_titles_None by done. rewrite Hproto. reflexivity.
Qed.

(** C6: [getPageContent] is a total function of the page identifier alone;
    it returns the payload of each of the four pages and the not-found
    payload for every other identifier. *)
Theorem getPageContent_resolves :
  getPageContent "home" = getHomeContent ∧
  getPageContent "about" = getAboutContent ∧
  getPageContent "projects" = getProjectsContent ∧
  getPageContent "contact" = getContactContent ∧
  ∀ page : Page, ¬ enumerated page → getPageContent page = get404Content.
Proof.
  repeat split; try reflexivity.
  intros page H. unfold enumerated in H. unfold getPageContent.
  rewrite !eqb_false_of_ne; [done | naive_solver..].
Qed.

Lemma getPageContent_resolves_witness :
  ¬ enumerated "blog" ∧ getPageContent "blog" = get404Content.
Proof.
  assert (H : ¬ enumerated "blog") by (unfold enumerated; intros [?|[?|[?|?]]]; discriminate).
  split; [exact H|].
  exact (proj2 (proj2 (proj2 (proj2 getPageContent_resolves))) "blog" H).
Defined.

(** ** The microtask checkpoint *)

Arguments drain : simpl never.
Arguments run : simpl never.

Lemma drain_nil h n w : microtasks w = [] → drain h n w = w.
Proof. intros H. destruct n; simpl; [done|]. unfold drain. by rewrite H. Qed.

Lemma drain_cons h n w k ks :
  microtasks w = k :: ks →
  drain h (S n) w = drain h n (resume h k (set_microtasks ks w)).
Proof. intros H. unfold drain at 1. rewrite H. reflexivity. Qed.

Lemma checkpoint_idle h w : microtasks w = [] → checkpoint h w = w.
Proof. intros H. unfold checkpoint. by apply drain_nil. Qed.

Lemma run_nil h w : run h [] w = w.
Proof. reflexivity. Qed.

Lemma run_cons h ev evs w : run h (ev :: evs) w = run h evs (dispatch h w ev).
Proof. reflexivity. Qed.

Lemma monitor_app ph tr tr' :
  monitor ph (tr ++ tr') =
  match monitor ph tr with
  | Some ph' => monitor ph' tr'
  | None => None
  end.
Proof.
  revert ph. induction tr as [|ev tr IH]; intros ph; simpl; [done|].
  destruct (observe ph ev); [apply IH | done].
Qed.

(** ** Symbolic execution of a task *)

Ltac unfold_app :=
  cbv beta iota zeta delta
    [dispatch handle handleNavigation handlePopState navigateTo loadPage
     fadeOut fadeIn afterFadeOut afterFadeIn catch_finally finally
     setup setupAnimations setupLazyLoading
     setupScrollAnimations smoothScrollTo updatePageTitle dispatchPageLoadEvent
     pushState setTimeout queueMicrotask restyle assign_innerHTML updateNavigation
     animatable fireTimer runCallback resume emit console_write pending
     set_currentPage set_isLoading set_animationObserver set_mainContent
     set_navLinks set_inView set_nextNode set_title set_history set_console
     set_timers set_microtasks set_now set_trace
     currentPage isLoading animationObserver mainContent navLinks inView
     nextNode title history console timers microtasks now trace
     due delay callback innerHTML style nodes].

(** A flag of the host: taken from the context when it is known there,
    split in two cases otherwise. *)
Ltac split_host :=
  match goal with
  | H : throws ?h ?op = _ |- context [throws ?h ?op] => rewrite H
  | H : hasIntersectionObserver ?h = _ |- context [hasIntersectionObserver ?h] => rewrite H
  | H : hasNativeLazyLoading ?h = _ |- context [hasNativeLazyLoading ?h] => rewrite H
  | H : hasGtag ?h = _ |- context [hasGtag ?h] => rewrite H
  | H : refusesURL ?h ?u = _ |- context [refusesURL ?h ?u] => rewrite H
  | |- context [throws ?h ?op] => destruct (throws h op) eqn:?
  | |- context [hasIntersectionObserver ?h] => destruct (hasIntersectionObserver h) eqn:?
  | |- context [hasNativeLazyLoading ?h] => destruct (hasNativeLazyLoading h) eqn:?
  | |- context [hasGtag ?h] => destruct (hasGtag h) eqn:?
  | |- context [refusesURL ?h ?u] => destruct (refusesURL h u) eqn:?
  | |- context [match ?mc with Some _ => _ | None => _ end] => is_var mc; destruct mc
  end.

(** Whether a timer is due. *)
Ltac split_due :=
  match goal with
  | |- context [(?a <=? ?b)%nat] =>
      destruct (Nat.leb_spec a b); try (exfalso; lia)
  end.

(** Runs the handler to an explicit world, case by case on the host. *)
Ltac norm_world := repeat (unfold_app; cbn; try split_host).

(** Runs the microtask checkpoint of an explicit world. *)
Ltac drain_all :=
  repeat (first [ rewrite drain_nil by reflexivity
                | erewrite drain_cons by reflexivity ];
          norm_world).

Ltac run_app := norm_world; unfold checkpoint; cbn; drain_all.

(** One task of a schedule, run on an explicit world. *)
Ltac step_run :=
  lazymatch goal with
  | |- context [run ?h (?ev :: ?evs) ?w] =>
      change (run h (ev :: evs) w) with (run h evs (dispatch h w ev));
      run_app; repeat (split_due; run_app)
  end.

Ltac end_run :=
  repeat lazymatch goal with
         | |- context [run ?h [] ?w] => change (run h [] w) with w
         end.

Ltac exec_run := unfold settle; repeat step_run; end_run.

(** Closes an [Inv] goal over an explicit world, given the run of the
    monitor on the old log. *)
Ltac close_inv Hm :=
  unfold Inv; simpl; rewrite <- ?app_assoc; simpl;
  rewrite ?monitor_app, ?Hm; simpl;
  repeat (case_decide; [|exfalso; lia]); simpl;
  eexists; split; [reflexivity|];
  econstructor; simpl; first [reflexivity | lia].

(** The fuel of the checkpoint is enough: a continuation queues less work
    than it weighs, so the queue is empty when [drain] stops. *)
Lemma resume_pending h k w :
  (pending (resume h k w) + 1 ≤ pending w + weight k)%nat.
Proof.
  destruct w as [cp il ao mc nl iv nn ti hi co tm mt nw tr], k; norm_world;
    rewrite ?sum_list_with_app; cbn; lia.
Qed.

Lemma drain_empties h n w : (pending w ≤ n)%nat → microtasks (drain h n w) = [].
Proof.
  revert w. induction n as [|n IH]; intros w Hn.
  - destruct w as [cp il ao mc nl iv nn ti hi co tm [|k ks] nw tr]; [done|].
    unfold pending in Hn. cbn in Hn. destruct k; cbn in Hn; lia.
  - destruct (microtasks w) as [|k ks] eqn:Hm.
    + by rewrite drain_nil.
    + rewrite (drain_cons h n w k ks Hm). apply IH.
      pose proof (resume_pending h k (set_microtasks ks w)) as Hr.
      assert (Hw : pending w = (weight k + pending (set_microtasks ks w))%nat).
      { destruct w. cbn in Hm. subst. reflexivity. }
      lia.
Qed.

Lemma checkpoint_empties h w : microtasks (checkpoint h w) = [].
Proof. by apply drain_empties. Qed.

(** ** Frames *)

Lemma frame_refl w : frame w w.
Proof. by repeat split. Qed.

Lemma frame_trans w1 w2 w3 : frame w1 w2 → frame w2 w3 → frame w1 w3.
Proof. unfold frame. intros H12 H23. intuition congruence. Qed.

Lemma revealEntry_frame w entry : frame w (revealEntry w entry).
Proof.
  destruct entry as [e b]. unfold revealEntry, unobserve. simpl.
  destruct b; [|apply frame_refl]. by repeat split.
Qed.

Lemma observerCallback_frame entries w : frame w (observerCallback entries w).
Proof.
  unfold observerCallback. revert w.
  induction entries as [|entry entries IH]; intros w; simpl.
  - apply frame_refl.
  - eapply frame_trans; [apply revealEntry_frame | apply IH].
Qed.

Lemma deliver_frame entries w : frame w (deliver entries w).
Proof.
  unfold deliver. case_match.
  - apply observerCallback_frame.
  - apply frame_refl.
Qed.

Lemma consistent_frame w w' ph : frame w w' → consistent w ph → consistent w' ph.
Proof.
  intros (_ & Hl & _ & _ & _ & _ & Ht & Hm & Hn & _) Hc.
  destruct Hc; econstructor; rewrite ?Hl, ?Ht, ?Hm, ?Hn; eauto.
Qed.

Lemma Inv_frame w w' : frame w w' → Inv w → Inv w'.
Proof.
  intros Hf (ph & Hm & Hc). exists ph. split.
  - destruct Hf as (_ & _ & _ & _ & _ & _ & _ & _ & _ & ->). done.
  - by eapply consistent_frame.
Qed.

Lemma keeps_refl w : keeps w w.
Proof. done. Qed.

Lemma keeps_trans w1 w2 w3 : keeps w1 w2 → keeps w2 w3 → keeps w1 w3.
Proof. unfold keeps. intros [? ?] [? ?]. split; congruence. Qed.

(** ** Each task preserves the invariant *)

Section Invariant.

Variable h : Host.

Lemma Inv_idle w : Inv w → microtasks w = [].
Proof. intros (ph & _ & Hc). by destruct Hc. Qed.

Lemma loadPage_Inv page ps w : Inv w → Inv (checkpoint h (loadPage h page ps w)).
Proof.
  intros (ph & Hm & Hc).
  destruct w as [cp il ao mc nl iv nn ti hi co tm mt nw tr].
  inversion Hc; cbn in *; subst; run_app; close_inv Hm.
Qed.

Lemma navigateTo_Inv page w : Inv w → Inv (checkpoint h (navigateTo h page w)).
Proof.
  intros (ph & Hm & Hc).
  destruct w as [cp il ao mc nl iv nn ti hi co tm mt nw tr].
  inversion Hc; cbn in *; subst; run_app; close_inv Hm.
Qed.

Lemma handleNavigation_Inv link w :
  Inv w → Inv (checkpoint h (handleNavigation h link w)).
Proof.
  intros HI. unfold handleNavigation.
  assert (Hid : Inv (checkpoint h w)) by (by rewrite checkpoint_idle; [|apply Inv_idle]).
  destruct link as [page|]; [|done].
  destruct (String.eqb page (currentPage w) || isLoading w); [done|].
  by apply navigateTo_Inv.
Qed.

Lemma handleKeyboardNavigation_Inv altKey key w :
  Inv w → Inv (checkpoint h (handleKeyboardNavigation h altKey key w)).
Proof.
  intros HI. unfold handleKeyboardNavigation.
  assert (Hid : Inv (checkpoint h w)) by (by rewrite checkpoint_idle; [|apply Inv_idle]).
  repeat case_match; try done; by apply navigateTo_Inv.
Qed.

Lemma fireTimer_Inv w : Inv w → Inv (checkpoint h (fireTimer w)).
Proof.
  intros (ph & Hm & Hc).
  destruct w as [cp il ao mc nl iv nn ti hi co tm mt nw tr].
  inversion Hc; cbn in *; subst; unfold fireTimer; cbn.
  - close_inv Hm.
  - destruct (Nat.leb_spec (t0 + 150) nw); run_app; close_inv Hm.
  - destruct (Nat.leb_spec (t1 + 250) nw); run_app; close_inv Hm.
Qed.

Lemma elapse_Inv ms w : Inv w → Inv (checkpoint h (set_now (now w + ms) w)).
Proof.
  intros (ph & Hm & Hc).
  destruct w as [cp il ao mc nl iv nn ti hi co tm mt nw tr].
  inversion Hc; cbn in *; subst; run_app; close_inv Hm.
Qed.

Lemma deliver_Inv entries w : Inv w → Inv (checkpoint h (deliver entries w)).
Proof.
  intros HI.
  assert (HI' : Inv (deliver entries w)) by (eapply Inv_frame; [apply deliver_frame | done]).
  by rewrite checkpoint_idle; [|apply Inv_idle].
Qed.

Lemma dispatch_Inv w ev : Inv w → Inv (dispatch h w ev).
Proof.
  intros HI. unfold dispatch.
  destruct ev as [link|altKey key|state|page|page ps|entries|ms|]; simpl.
  - by apply handleNavigation_Inv.
  - by apply handleKeyboardNavigation_Inv.
  - by apply loadPage_Inv.
  - by apply navigateTo_Inv.
  - by apply loadPage_Inv.
  - by apply deliver_Inv.
  - by apply elapse_Inv.
  - by apply fireTimer_Inv.
Qed.

Lemma boot_Inv container links title0 firstNode clock initialPage :
  Inv (boot h container links title0 firstNode clock initialPage).
Proof.
  assert (Hm : monitor Quiet [] = Some Quiet) by reflexivity.
  unfold boot, construct. run_app; close_inv Hm.
Qed.

Lemma reachable_Inv w : reachable h w → Inv w.
Proof.
  induction 1 as [|w ev _ IH]; [apply boot_Inv | by apply dispatch_Inv].
Qed.

Lemma run_reachable evs w : reachable h w → reachable h (run h evs w).
Proof.
  revert w. induction evs as [|ev evs IH]; intros w Hr; [done|].
  rewrite run_cons. apply IH. by constructor.
Qed.

(** Between two tasks the guard is set exactly while a timer is pending. *)
Lemma Inv_no_timer w : Inv w → timers w = [] → isLoading w = false.
Proof.
  intros (ph & _ & Hc). destruct w. inversion Hc; cbn in *; subst; done.
Qed.

Lemma Inv_guard_clear w : Inv w → isLoading w = false → timers w = [] ∧ microtasks w = [].
Proof.
  intros (ph & _ & Hc). destruct w. inversion Hc; cbn in *; subst; done.
Qed.

(** From any world the application can be in, letting both waits pass
    ends the transition in flight, if there is one. *)
Lemma settle_quiet w : Inv w → consistent (run h settle w) Quiet.
Proof.
  intros (ph & Hm & Hc).
  destruct w as [cp il ao mc nl iv nn ti hi co tm mt nw tr].
  inversion Hc; cbn in *; subst; clear Hc; exec_run;
    by constructor.
Qed.

Lemma loadPage_settles page ps w :
  isLoading w = false → timers w = [] → microtasks w = [] →
  ended h w (run h (Call_loadPage page ps :: settle) w).
Proof.
  destruct w as [cp il ao mc nl iv nn ti hi co tm mt nw tr].
  cbn. intros -> -> ->. exec_run.
  all: unfold ended, faulty; cbn; repeat split; try done.
  all: intros Hf Hs.
  all: repeat match goal with
              | H : throws _ _ = _ |- _ => rewrite H in Hf; clear H
              | H : hasIntersectionObserver _ = _ |- _ => rewrite H in Hf; clear H
              end.
  all: cbn in Hf; try discriminate; try done.
  all: by destruct Hs.
Qed.

End Invariant.

(** ** The guard *)

(** C1: in every world the application can reach, on any host and with any
    of the modelled faults, the guard is clear whenever no wait of a
    transition is pending; letting the two waits pass ends the transition in
    flight with the guard clear; and a transition started by [loadPage] from
    a clear guard ends with the guard clear, with the error payload in the
    container when something in the [try] block threw. *)
Theorem loadPage_releases_guard (h : Host) (w : World) :
  reachable h w →
  (timers w = [] → isLoading w = false) ∧
  isLoading (run h settle w) = false ∧
  ∀ page ps,
    isLoading w = false →
    let w' := run h (Call_loadPage page ps :: settle) w in
    isLoading w' = false ∧ timers w' = [] ∧
    (faulty h = true → is_Some (mainContent w) →
     innerHTML <$> mainContent w' = Some getErrorContent).
Proof.
  intros Hr. pose proof (reachable_Inv h w Hr) as HI.
  split; [|split].
  - by apply Inv_no_timer.
  - pose proof (settle_quiet h w HI) as Hq. by inversion Hq.
  - intros page ps Hl. cbv zeta.
    destruct (Inv_guard_clear w HI Hl) as [Ht Hm].
    destruct (loadPage_settles h page ps w Hl Ht Hm) as (H1 & H2 & _ & H4). done.
Qed.

Lemma loadPage_releases_guard_witness :
  let w := boot legacyHost (Some shellContainer) [] shellTitle 0 0 "home" in
  let w' := run legacyHost (Call_loadPage "about" false :: settle) w in
  isLoading w' = false ∧ innerHTML <$> mainContent w' = Some getErrorContent.
Proof.
  intros w w'.
  destruct (loadPage_releases_guard legacyHost w
              (reachable_boot legacyHost (Some shellContainer) [] shellTitle 0 0 "home"))
    as (_ & _ & H).
  assert (Hclear : isLoading w = false) by (vm_compute; reflexivity).
  destruct (H "about" false Hclear) as (Hl & _ & He).
  split; [exact Hl|].
  apply He; [reflexivity | exists shellContainer; vm_compute; reflexivity].
Defined.

(** C8: with the container missing, [loadPage] logs the condition, queues
    nothing, renders nothing and returns with the guard clear. *)
Theorem loadPage_missing_container (h : Host) (page : Page) (ps : bool) (w : World) :
  isLoading w = false →
  mainContent w = None →
  let w' := loadPage h page ps w in
  isLoading w' = false ∧
  console w' = (console w ++ [ConsoleError "Main content container not found" None])%list ∧
  mainContent w' = None ∧
  timers w' = timers w ∧
  microtasks w' = microtasks w ∧
  title w' = title w ∧
  trace w' = (trace w ++ [(now w, TransitionBegun page); (now w, Aborted);
                          (now w, GuardCleared)])%list.
Proof.
  destruct w as [cp il ao mc nl iv nn ti hi co tm mt nw tr].
  cbn. intros -> ->. norm_world.
  rewrite <- !app_assoc. done.
Qed.

Lemma loadPage_missing_container_witness :
  let w := construct None [] shellTitle 0 0 in
  let w' := loadPage modernHost "about" false w in
  isLoading w' = false ∧
  console w' = [ConsoleError "Main content container not found" None] ∧
  mainContent w' = None ∧ timers w' = [] ∧ microtasks w' = [].
Proof.
  intros w w'.
  destruct (loadPage_missing_container modernHost "about" false w
              ltac:(reflexivity) ltac:(reflexivity))
    as (H1 & H2 & H3 & H4 & H5 & _).
  repeat split; assumption.
Defined.

(** ** The timeline of a transition *)

Lemma faulty_false h :
  faulty h = false →
  throws h OpFadeOut = false ∧ throws h OpResolveContent = false ∧
  throws h OpFadeIn = false ∧ hasIntersectionObserver h = true.
Proof.
  unfold faulty. intros H.
  repeat (apply orb_false_elim in H; destruct H as [H ?]).
  by destruct (hasIntersectionObserver h).
Qed.


(** *** The container follows the log *)





Section Renders.

Variable h : Host.








End Renders.

(** *** The stages of a transition *)

(** Closes a [staged] goal on an explicit world. *)
Ltac close_stage_side :=
  first [ reflexivity | eassumption | congruence
        | unfold pageLoads in *; cbn in *; rewrite ?List.filter_app; cbn;
          rewrite ?app_nil_r;
          first [ eassumption | congruence
                | match goal with H : List.filter _ _ = _ |- _ => by rewrite H end ] ].

Ltac close_staged :=
  first [ solve [ eapply staged_out; cbn; close_stage_side ]
        | solve [ eapply staged_in; cbn; close_stage_side ]
        | solve [ eapply staged_done; cbn; close_stage_side ] ].

Section Staged.

Variable h : Host.
Hypothesis sound : faulty h = false.


Lemma navigateTo_staged page w :
  isLoading w = false → timers w = [] → microtasks w = [] → is_Some (mainContent w) →
  staged page w (dispatch h w (Call_navigateTo page)).
Proof using sound.
  destruct (faulty_false h sound) as (Ho & Hr & Hi & Hio).
  intros Hl Ht Hm [el Hel].
  destruct w as [cp il ao mc nl iv nn ti hi co tm mt nw tr].
  cbn in *. subst. run_app; close_staged.
Qed.

Lemma dispatch_staged page w0 w ev :
  is_Some (mainContent w0) → request ev = false →
  staged page w0 w → staged page w0 (dispatch h w ev).
Proof using sound.
  destruct (faulty_false h sound) as (Ho & Hr & Hi & Hio).
  intros [el0 Hel0] Hev Hs. unfold dispatch.
  destruct w0 as [cp0 il0 ao0 mc0 nl0 iv0 nn0 ti0 hi0 co0 tm0 mt0 nw0 tr0].
  cbn in Hel0. subst mc0.
  destruct ev as [link|altKey key|state|pg|pg ps|entries|ms|]; try discriminate; simpl.
  - assert (Hi' : microtasks (deliver entries w) = []).
    { destruct (deliver_frame entries w) as (_ & _ & _ & _ & _ & _ & _ & -> & _).
      by destruct Hs. }
    rewrite checkpoint_idle by done.
    destruct (deliver_frame entries w)
      as (Hcp & Hl & Hmc & Hti & _ & _ & Htm & Hmt & _ & Htr).
    assert (Hpl : pageLoads (deliver entries w) = pageLoads w)
      by (unfold pageLoads; by rewrite Htr).
    destruct Hs as [d dl|d dl|t].
    + eapply staged_out; rewrite ?Hcp, ?Hl, ?Hmc, ?Hti, ?Htm, ?Hmt, ?Hpl; eassumption.
    + eapply staged_in; rewrite ?Hcp, ?Hl, ?Hmc, ?Hti, ?Htm, ?Hmt, ?Hpl; eassumption.
    + eapply staged_done; rewrite ?Hcp, ?Hl, ?Hmc, ?Hti, ?Htm, ?Hmt, ?Hpl; eassumption.
  - destruct w as [cp il ao mc nl iv nn ti hi co tm mt nw tr].
    inversion Hs; cbn in *; subst; run_app; close_staged.
  - destruct w as [cp il ao [[ih st nd]|] nl iv nn ti hi co tm mt nw tr];
      [|inversion Hs; cbn in *; discriminate].
    inversion Hs; cbn in *; subst; unfold fireTimer; cbn.
    + destruct (Nat.leb_spec d nw); run_app; close_staged.
    + destruct (Nat.leb_spec d nw); run_app; close_staged.
    + run_app. close_staged.
Qed.

Lemma run_staged page w0 evs w :
  is_Some (mainContent w0) → Forall (λ ev, request ev = false) evs →
  staged page w0 w → staged page w0 (run h evs w).
Proof using sound.
  intros H0 Hevs. revert w. induction Hevs as [|ev evs Hev _ IH]; intros w Hs; [done|].
  rewrite run_cons. by apply IH, dispatch_staged.
Qed.

End Staged.



(** ** What a task pushes and reveals *)

Section Keeps.

Variable h : Host.

Lemma resume_keeps k w : keeps w (resume h k w).
Proof. destruct w, k; norm_world; done. Qed.

Lemma drain_keeps n w : keeps w (drain h n w).
Proof.
  revert w. induction n as [|n IH]; intros w; [done|].
  destruct (microtasks w) as [|k ks] eqn:Hm.
  - by rewrite drain_nil.
  - rewrite (drain_cons h n w k ks Hm).
    eapply keeps_trans; [|apply IH].
    eapply keeps_trans; [|apply resume_keeps].
    by destruct w.
Qed.

Lemma checkpoint_keeps w : keeps w (checkpoint h w).
Proof. apply drain_keeps. Qed.

Lemma loadPage_keeps page ps w : keeps w (loadPage h page ps w).
Proof. destruct w as [cp [] ao mc nl iv nn ti hi co tm mt nw tr]; norm_world; done. Qed.

Lemma handlePopState_keeps state w : keeps w (handlePopState h state w).
Proof. unfold handlePopState. apply loadPage_keeps. Qed.

Lemma fireTimer_keeps w : keeps w (fireTimer w).
Proof.
  destruct w as [cp il ao mc nl iv nn ti hi co [|[d dl [p|p]] tm] mt nw tr];
    unfold fireTimer; cbn; [done|..]; case_match; norm_world; done.
Qed.

(** [navigateTo] pushes exactly one entry unless the guard stops it or
    the host refuses the URL. *)
Lemma navigateTo_history page w :
  history (navigateTo h page w) =
  if isLoading w || refusesURL h (urlFor page) then history w
  else (history w ++ [{| state_page := page; url := urlFor page |}])%list.
Proof. destruct w as [cp [] ao mc nl iv nn ti hi co tm mt nw tr]; norm_world; done. Qed.

Lemma navigateTo_inView page w : inView (navigateTo h page w) = inView w.
Proof. destruct w as [cp [] ao mc nl iv nn ti hi co tm mt nw tr]; norm_world; done. Qed.

Lemma dispatch_history_other w ev :
  userNavigation ev = false → history (dispatch h w ev) = history w.
Proof.
  intros Hev. unfold dispatch.
  destruct (checkpoint_keeps (handle h ev w)) as [-> _].
  destruct ev as [link|altKey key|state|page|page ps|entries|ms|];
    try discriminate; simpl.
  - apply handlePopState_keeps.
  - apply loadPage_keeps.
  - by destruct (deliver_frame entries w) as (_ & _ & _ & _ & -> & _).
  - by destruct w.
  - apply fireTimer_keeps.
Qed.

Lemma run_history_other evs w :
  Forall (λ ev, userNavigation ev = false) evs →
  history (run h evs w) = history w.
Proof.
  intros Hevs. revert w. induction Hevs as [|ev evs Hev _ IH]; intros w; [done|].
  rewrite run_cons, IH. by apply dispatch_history_other.
Qed.

End Keeps.



(** ** [navigateTo] *)

(** The guards there are: [navigateTo] and [loadPage] stop on [isLoading],
    and the click handler also on the current page. *)
Lemma navigateTo_guarded h page w : isLoading w = true → navigateTo h page w = w.
Proof. intros H. unfold navigateTo. by rewrite H. Qed.



(** Called twice within one task, [navigateTo] acts once: the first call
    leaves the guard set (the container exists and the fade-out started). *)
Lemma navigateTo_twice_at_once h page w :
  isLoading w = false → is_Some (mainContent w) → throws h OpFadeOut = false →
  navigateTo h page (navigateTo h page w) = navigateTo h page w.
Proof.
  intros Hl [el Hel] F1. apply navigateTo_guarded.
  destruct w as [cp il ao mc nl iv nn ti hi co tm mt nw tr].
  cbn in *. subst. norm_world; done.
Qed.

(** With the guard clear, [navigateTo] pushes an entry whatever the target,
    the current page included. *)
Lemma navigateTo_not_guarded_by_page h w :
  isLoading w = false → refusesURL h (urlFor (currentPage w)) = false →
  history (navigateTo h (currentPage w) w) =
  (history w ++ [{| state_page := currentPage w; url := urlFor (currentPage w) |}])%list.
Proof. intros H H'. by rewrite navigateTo_history, H, H'. Qed.

(** C2, evaluated on the home page once its initial load has completed:
    Alt+1 calls [navigateTo('home')], which starts a transition and pushes
    an entry although the page is the current one; a second [navigateTo]
    for the same page after that transition has ended does it again. *)
Theorem navigateTo_repeats_current_page :
  let w := run modernHost settle
             (boot modernHost (Some shellContainer) [] shellTitle 0 0 "home") in
  let w1 := dispatch modernHost w (KeyDown true "1") in
  let w2 := dispatch modernHost (run modernHost settle w1) (Call_navigateTo "home") in
  (currentPage w = "home" ∧ isLoading w = false ∧ history w = []) ∧
  (isLoading w1 = true ∧ timers w1 ≠ [] ∧
   history w1 = [{| state_page := "home"; url := "/" |}]) ∧
  (isLoading w2 = true ∧
   history w2 = [{| state_page := "home"; url := "/" |};
                 {| state_page := "home"; url := "/" |}]).
Proof. vm_compute. repeat split; discriminate. Qed.

(** C3 as stated fails: right after [navigateTo('about')] from the home
    page, with the transition in flight and no wait elapsed, the current
    page is already the new one and the entry is already pushed. *)
Lemma navigateTo_in_flight_counterexample :
  let w := run modernHost settle
             (boot modernHost (Some shellContainer) [] shellTitle 0 0 "home") in
  let w1 := dispatch modernHost w (Call_navigateTo "about") in
  isLoading w = false ∧ currentPage w = "home" ∧
  isLoading w1 = true ∧ timers w1 ≠ [] ∧
  ¬ (currentPage w1 = currentPage w ∧ history w1 = history w).
Proof.
  vm_compute. repeat split; try discriminate.
  intros [H _]. discriminate H.
Qed.

Lemma navigateTo_completed h page w :
  isLoading w = false → timers w = [] → microtasks w = [] →
  is_Some (mainContent w) → faulty h = false →
  refusesURL h (urlFor page) = false →
  completed h page w (run h (Call_navigateTo page :: settle) w).
Proof.
  intros Hl Ht Hm [el Hel] Hf Hu.
  destruct (faulty_false h Hf) as (F1 & F2 & F3 & F4).
  destruct w as [cp il ao mc nl iv nn ti hi co tm mt nw tr].
  cbn in *. subst. exec_run; try congruence.
  all: unfold completed, navigation_log; cbn; rewrite <- ?app_assoc; cbn.
  all: match goal with H : hasGtag _ = _ |- _ => rewrite H end; done.
Qed.

(** When the host refuses the URL, [navigateTo] has started the transition
    all the same: the entry is missing, and so is the call of [gtag]. *)
Lemma navigateTo_refused h page w :
  isLoading w = false → refusesURL h (urlFor page) = true →
  navigateTo h page w = loadPage h page true w.
Proof.
  intros Hl Hu. unfold navigateTo, pushState. by rewrite Hl, Hu.
Qed.

(** C3, amended: when [navigateTo(page)] begins a transition for a page
    whose URL [history.pushState] accepts, it sets the guard and the current
    page and pushes the history entry at once; at every moment of the
    transition, on any schedule of waits, timers and observer reports, the
    current page is the new one and the entry is there, while the title and
    the page-loaded notifications stay as they were until the transition
    ends, after the content swap, with the title updated, the notification
    dispatched and the guard released. *)
Theorem navigateTo_commits_at_once (h : Host) (page : Page) (w : World)
    (evs : list Event) :
  reachable h w →
  isLoading w = false →
  is_Some (mainContent w) →
  faulty h = false →
  refusesURL h (urlFor page) = false →
  Forall (λ ev, request ev = false) evs →
  let w' := run h (Call_navigateTo page :: evs) w in
  history w' = (history w ++ [{| state_page := page; url := urlFor page |}])%list ∧
  staged page w w' ∧
  completed h page w (run h (Call_navigateTo page :: settle) w).
Proof.
  intros Hr Hl Hs Hf Hu Hevs w'.
  destruct (Inv_guard_clear w (reachable_Inv h w Hr) Hl) as [Ht Hm].
  split; [|split].
  - subst w'. rewrite run_cons, run_history_other.
    + unfold dispatch. destruct (checkpoint_keeps h (handle h (Call_navigateTo page) w))
        as [-> _].
      simpl. by rewrite navigateTo_history, Hl, Hu.
    + eapply Forall_impl; [exact Hevs|]. intros [] Hev; done.
  - subst w'. rewrite run_cons. apply run_staged; [done..|]. by apply navigateTo_staged.
  - by apply navigateTo_completed.
Qed.

Lemma navigateTo_commits_at_once_witness :
  let w := run modernHost settle
             (boot modernHost (Some shellContainer) [] shellTitle 0 0 "home") in
  let w' := run modernHost [Call_navigateTo "about"; Elapse 150; TimerDue; Elapse 100] w in
  isLoading w' = true ∧
  history w' = (history w ++ [{| state_page := "about"; url := "/about" |}])%list ∧
  staged "about" w w' ∧
  completed modernHost "about" w (run modernHost (Call_navigateTo "about" :: settle) w).
Proof.
  intros w w'.
  split; [vm_compute; reflexivity|].
  apply (navigateTo_commits_at_once modernHost "about" w [Elapse 150; TimerDue; Elapse 100]).
  - apply run_reachable, reachable_boot.
  - vm_compute; reflexivity.
  - eexists; vm_compute; reflexivity.
  - reflexivity.
  - reflexivity.
  - repeat constructor.
Defined.

(** ** A host without [IntersectionObserver] *)

(** C5, on any host without [IntersectionObserver]: the guarded entry point
    [setupAnimations] only warns, but every transition that reaches the
    re-arming ends in the [catch] block, with the error payload in the
    container and the title untouched. *)
Theorem missing_observer_shows_error (h : Host) (page : Page) (ps : bool) (w : World) :
  hasIntersectionObserver h = false →
  throws h OpFadeOut = false → throws h OpResolveContent = false →
  throws h OpFadeIn = false →
  isLoading w = false → timers w = [] → microtasks w = [] →
  is_Some (mainContent w) →
  setupAnimations h w = Ok (console_write (ConsoleWarn "IntersectionObserver not supported") w) ∧
  shows_error w (run h (Call_loadPage page ps :: settle) w).
Proof.
  intros F4 F1 F2 F3 Hl Ht Hm [el Hel].
  destruct w as [cp il ao mc nl iv nn ti hi co tm mt nw tr].
  cbn in *. subst. split.
  - unfold setupAnimations. by rewrite F4.
  - exec_run; try congruence; by unfold shows_error.
Qed.

Lemma missing_observer_shows_error_witness :
  let w := boot legacyHost (Some shellContainer) [] shellTitle 0 0 "home" in
  shows_error w (run legacyHost (Call_loadPage "about" false :: settle) w).
Proof.
  intros w.
  destruct (missing_observer_shows_error legacyHost "about" false w)
    as (_ & H); try reflexivity.
  - eexists; reflexivity.
  - exact H.
Defined.

(** ** Scroll reveal *)

Section Reveal.

Variable h : Host.

(** One entry: the revealed set grows, the targets shrink, and an
    intersecting target ends up revealed and unobserved. *)
Lemma revealEntry_spec w ts entry :
  animationObserver w = Some ts →
  ∃ ts', animationObserver (revealEntry w entry) = Some ts' ∧
         ts' ⊆ ts ∧ inView w ⊆ inView (revealEntry w entry) ∧
         (entry.2 = true → entry.1 ∈ inView (revealEntry w entry) ∧ entry.1 ∉ ts').
Proof.
  destruct w as [cp il ao mc nl iv nn ti hi co tm mt nw tr], entry as [e b].
  cbn. intros ->. unfold revealEntry, unobserve. destruct b; cbn.
  - exists (ts ∖ {[e]}). split; [done|]. split; [apply subseteq_difference_l; done|].
    split; [apply union_subseteq_r|]. intros _. split.
    + apply elem_of_union_l, elem_of_singleton. reflexivity.
    + rewrite elem_of_difference, elem_of_singleton. tauto.
  - exists ts. repeat split; done.
Qed.

Lemma observerCallback_spec entries w ts :
  animationObserver w = Some ts →
  ∃ ts', animationObserver (observerCallback entries w) = Some ts' ∧
         ts' ⊆ ts ∧ inView w ⊆ inView (observerCallback entries w) ∧
         ∀ e, (e, true) ∈ entries →
              e ∈ inView (observerCallback entries w) ∧ e ∉ ts'.
Proof.
  unfold observerCallback. revert w ts.
  induction entries as [|entry entries IH]; intros w ts Ho; simpl.
  - exists ts. split; [done|]. split; [done|]. split; [done|].
    intros e He. by apply elem_of_nil in He.
  - destruct (revealEntry_spec w ts entry Ho) as (ts1 & Ho1 & Hsub1 & Hin1 & Hhit1).
    destruct (IH _ _ Ho1) as (ts2 & Ho2 & Hsub2 & Hin2 & Hhit2).
    exists ts2. split; [done|]. split; [by etrans|]. split; [by etrans|].
    intros e He. apply elem_of_cons in He as [<-|He].
    + destruct (Hhit1 eq_refl) as [Hv Hn]. cbn in Hv, Hn. split.
      * by apply Hin2.
      * intros Hc. apply Hn. by apply Hsub2.
    + by apply Hhit2.
Qed.

Lemma observerCallback_inView_mono entries w :
  inView w ⊆ inView (observerCallback entries w).
Proof.
  unfold observerCallback. revert w.
  induction entries as [|[e b] entries IH]; intros w; simpl; [done|].
  etrans; [|apply IH].
  destruct w. unfold revealEntry, unobserve. destruct b; cbn; [|done].
  apply union_subseteq_r.
Qed.

Lemma deliver_inView_mono entries w : inView w ⊆ inView (deliver entries w).
Proof.
  unfold deliver. case_match; [apply observerCallback_inView_mono | done].
Qed.

(** Entries for an element that is not a target never reach the callback. *)
Lemma deliver_unobserved entries w ts e :
  animationObserver w = Some ts → e ∉ ts →
  deliver entries w = deliver (filter (λ en, en.1 ≠ e) entries) w.
Proof.
  intros Ho He. unfold deliver.
  destruct w as [cp il ao mc nl iv nn ti hi co tm mt nw tr]. cbn in *. subst ao.
  f_equal. induction entries as [|[e' b] entries IH]; [done|].
  rewrite !filter_cons. simpl.
  destruct (decide (e' ∈ ts)) as [Hin|Hout].
  - rewrite (decide_True (P := e' ≠ e)) by congruence.
    rewrite filter_cons. simpl. rewrite decide_True by done. by f_equal.
  - destruct (decide (e' ≠ e)); [|done].
    rewrite filter_cons. simpl. by rewrite decide_False.
Qed.

(** No task removes the class [in-view] from an element. *)
Lemma dispatch_inView_mono w ev : inView w ⊆ inView (dispatch h w ev).
Proof.
  unfold dispatch.
  destruct (checkpoint_keeps h (handle h ev w)) as [_ ->].
  destruct ev as [link|altKey key|state|page|page ps|entries|ms|]; simpl.
  - unfold handleNavigation. repeat case_match; try done. by rewrite navigateTo_inView.
  - unfold handleKeyboardNavigation. repeat case_match; try done. by rewrite navigateTo_inView.
  - by destruct (handlePopState_keeps h state w) as [_ ->].
  - by rewrite navigateTo_inView.
  - by destruct (loadPage_keeps h page ps w) as [_ ->].
  - apply deliver_inView_mono.
  - by destruct w.
  - by destruct (fireTimer_keeps w) as [_ ->].
Qed.

Lemma run_inView_mono evs w : inView w ⊆ inView (run h evs w).
Proof.
  revert w. induction evs as [|ev evs IH]; intros w; [done|].
  rewrite run_cons. etrans; [apply dispatch_inView_mono | apply IH].
Qed.

End Reveal.

(** C9: when the observer reports a watched element as intersecting, the
    element gets the class [in-view] and is unobserved in the same callback;
    later reports about it, leaving or entering, never reach the callback
    and leave it revealed; and nothing the application does afterwards, on
    any schedule, takes the class away. *)
Theorem reveal_is_one_shot (h : Host) (w : World) (ts : gset nat)
    (e : nat) (entries : list (nat * bool)) :
  animationObserver w = Some ts →
  e ∈ ts →
  (e, true) ∈ entries →
  let w' := deliver entries w in
  e ∈ inView w' ∧
  (∃ ts', animationObserver w' = Some ts' ∧ e ∉ ts') ∧
  (∀ again, deliver again w' = deliver (filter (λ en, en.1 ≠ e) again) w' ∧
            e ∈ inView (deliver again w')) ∧
  (∀ evs, e ∈ inView (run h evs w')).
Proof.
  intros Ho He Hent w'.
  assert (Hfilt : (e, true) ∈ filter (λ en : nat * bool, en.1 ∈ ts) entries).
  { apply list_elem_of_filter. by split. }
  destruct (observerCallback_spec (filter (λ en : nat * bool, en.1 ∈ ts) entries) w ts Ho)
    as (ts' & Ho' & _ & _ & Hhit).
  destruct (Hhit e Hfilt) as [Hv Hn].
  assert (Hw' : w' = observerCallback (filter (λ en : nat * bool, en.1 ∈ ts) entries) w).
  { subst w'. unfold deliver. destruct w. cbn in *. by subst. }
  rewrite Hw'. split; [done|]. split; [by exists ts'|]. split.
  - intros again. split.
    + by apply (deliver_unobserved again _ ts').
    + by apply deliver_inView_mono.
  - intros evs. by apply run_inView_mono.
Qed.

Lemma reveal_is_one_shot_witness :
  let w := run modernHost settle
             (boot modernHost (Some shellContainer) [] shellTitle 0 0 "about") in
  let w' := deliver [(0, true)] w in
  0 ∈ inView w' ∧
  (∃ ts', animationObserver w' = Some ts' ∧ 0 ∉ ts') ∧
  0 ∈ inView (deliver [(0, false); (0, true)] w').
Proof.
  intros w w'.
  assert (Ho : animationObserver w = Some {[0; 1]}).
  { vm_compute. reflexivity. }
  destruct (reveal_is_one_shot modernHost w {[0; 1]} 0 [(0, true)] Ho)
    as (H1 & H2 & H3 & _).
  - apply elem_of_union_l, elem_of_singleton. reflexivity.
  - apply list_elem_of_singleton. reflexivity.
  - split; [exact H1|]. split; [exact H2|]. exact (proj2 (H3 _)).
Defined.

(** ** The title of a page outside the four *)

(** C10, evaluated at the page identifier [constructor], as the initial
    page of a host with every capability: it is outside the four pages and
    the container ends up with the not-found payload, but [titles[page]]
    finds the inherited [Object] function, so the title the transition
    leaves is that function printed, not the home title. *)
Theorem title_of_inherited_key :
  let w := run modernHost settle
             (boot modernHost (Some shellContainer) [] shellTitle 0 0 "constructor") in
  ¬ enumerated "constructor" ∧
  isLoading w = false ∧
  innerHTML <$> mainContent w = Some get404Content ∧
  title w = "function Object() { [native code] }" ∧
  title w ≠ homeTitle ∧
  ∀ w0, title (updatePageTitle "constructor" w0) ≠ homeTitle.
Proof.
  split; [apply not_enumerated_constructor|].
  vm_compute. repeat split; try discriminate.
Qed.

(** * Further properties of the router *)

(** ** The highlighted link *)

Lemma updateNavigation_highlights page links :
  Forall (highlights page)
    (map (λ l, {| data_page := data_page l;
                  active := match data_page l with
                            | Some p => String.eqb p page
                            | None => false
                            end |}) links).
Proof.
  apply Forall_map, Forall_forall. intros [dp a] _. unfold highlights. cbn.
  destruct dp as [p|]; [|done].
  destruct (String.eqb_spec p page) as [->|Hne].
  - by rewrite bool_decide_eq_true_2.
  - rewrite bool_decide_eq_false_2; [done|congruence].
Qed.

Lemma updateNavigation_targets page (links : list NavLink) :
  map data_page
    (map (λ l, {| data_page := data_page l;
                  active := match data_page l with
                            | Some p => String.eqb p page
                            | None => false
                            end |}) links)
  = map data_page links.
Proof. rewrite map_map. by apply map_ext. Qed.

Lemma nav_step_refl w : nav_step w w.
Proof. split; [done|]. by left. Qed.

Lemma nav_step_trans w1 w2 w3 : nav_step w1 w2 → nav_step w2 w3 → nav_step w1 w3.
Proof.
  intros [Hd12 H12] [Hd23 H23]. split; [congruence|].
  destruct H23 as [[Hc Hl]|Hs]; [|by right].
  destruct H12 as [[Hc' Hl']|Hs]; [left; split; congruence|].
  right. unfold nav_synced in *. by rewrite Hc, Hl.
Qed.

Lemma nav_step_synced w w' : nav_synced w → nav_step w w' → nav_synced w'.
Proof.
  intros Hs [_ [[Hc Hl]|Hs']]; [|done]. unfold nav_synced. by rewrite Hc, Hl.
Qed.

(** Closes a [nav_step] goal between explicit worlds. *)
Ltac close_nav :=
  split;
  [ cbn; first [ done | apply updateNavigation_targets ]
  | first [ left; split; reflexivity
          | right; apply updateNavigation_highlights ] ].

Section Links.

Variable h : Host.

Lemma resume_nav k w : nav_step w (resume h k w).
Proof. destruct w, k; norm_world; close_nav. Qed.

Lemma drain_nav n w : nav_step w (drain h n w).
Proof.
  revert w. induction n as [|n IH]; intros w; [apply nav_step_refl|].
  destruct (microtasks w) as [|k ks] eqn:Hm.
  - rewrite drain_nil by done. apply nav_step_refl.
  - rewrite (drain_cons h n w k ks Hm).
    eapply nav_step_trans; [|apply IH].
    eapply nav_step_trans; [|apply resume_nav].
    destruct w. split; [done|by left].
Qed.

Lemma loadPage_nav page ps w : nav_step w (loadPage h page ps w).
Proof. destruct w as [cp [] ao mc nl iv nn ti hi co tm mt nw tr]; norm_world; close_nav. Qed.

Lemma navigateTo_nav page w : nav_step w (navigateTo h page w).
Proof. destruct w as [cp [] ao mc nl iv nn ti hi co tm mt nw tr]; norm_world; close_nav. Qed.

Lemma fireTimer_nav w : nav_step w (fireTimer w).
Proof.
  destruct w as [cp il ao mc nl iv nn ti hi co [|[d dl [p|p]] tm] mt nw tr];
    unfold fireTimer; cbn; [apply nav_step_refl|..]; case_match; norm_world; close_nav.
Qed.

Lemma observerCallback_links entries w :
  currentPage (observerCallback entries w) = currentPage w ∧
  navLinks (observerCallback entries w) = navLinks w.
Proof.
  unfold observerCallback. revert w.
  induction entries as [|[e b] entries IH]; intros w; simpl; [done|].
  destruct (IH (revealEntry w (e, b))) as [-> ->].
  destruct w. unfold revealEntry, unobserve. by destruct b.
Qed.

Lemma handle_nav w ev : nav_step w (handle h ev w).
Proof.
  destruct ev as [link|altKey key|state|page|page ps|entries|ms|]; simpl.
  - unfold handleNavigation. repeat case_match;
      first [apply nav_step_refl | apply navigateTo_nav].
  - unfold handleKeyboardNavigation. repeat case_match;
      first [apply nav_step_refl | apply navigateTo_nav].
  - apply loadPage_nav.
  - apply navigateTo_nav.
  - apply loadPage_nav.
  - unfold deliver. case_match; [|apply nav_step_refl].
    destruct (observerCallback_links (filter (λ en : nat * bool, en.1 ∈ g) entries) w)
      as [Hc Hl].
    split; [by rewrite Hl|]. by left.
  - destruct w. split; [done|by left].
  - apply fireTimer_nav.
Qed.

Lemma dispatch_nav w ev : nav_step w (dispatch h w ev).
Proof.
  unfold dispatch. eapply nav_step_trans; [apply handle_nav | apply drain_nav].
Qed.

Lemma run_nav evs w : nav_step w (run h evs w).
Proof.
  revert w. induction evs as [|ev evs IH]; intros w; [apply nav_step_refl|].
  rewrite run_cons. eapply nav_step_trans; [apply dispatch_nav | apply IH].
Qed.

End Links.

(** X1: [loadPage], when the guard lets it run, highlights exactly the
    links of the page it loads, whatever the container and the host; from
    then on, on any schedule, the highlighted links are those of
    [currentPage], and no link is ever added, dropped or retargeted. *)
Theorem highlight_follows_currentPage (h : Host) (page : Page) (ps : bool)
    (w : World) (evs : list Event) :
  isLoading w = false →
  let w1 := loadPage h page ps w in
  currentPage w1 = page ∧
  nav_synced w1 ∧
  nav_synced (run h evs w1) ∧
  map data_page (navLinks (run h evs w1)) = map data_page (navLinks w).
Proof.
  intros Hl w1.
  assert (H1 : currentPage w1 = page ∧ nav_synced w1 ∧
               map data_page (navLinks w1) = map data_page (navLinks w)).
  { subst w1. destruct w as [cp il ao mc nl iv nn ti hi co tm mt nw tr].
    cbn in Hl. subst il. norm_world.
    all: split; [done|]; split;
      [apply updateNavigation_highlights | apply updateNavigation_targets]. }
  destruct H1 as (Hc & Hs & Hd). split; [done|]. split; [done|].
  destruct (run_nav h evs w1) as [Hd' Hstep]. split.
  - eapply nav_step_synced; [exact Hs|]. by split.
  - congruence.
Qed.

Lemma highlight_follows_currentPage_witness :
  let links := [ {| data_page := Some "home"; active := true |};
                 {| data_page := Some "about"; active := false |};
                 {| data_page := None; active := true |} ] in
  let w := construct (Some shellContainer) links shellTitle 0 0 in
  let w' := run modernHost (settle ++ [Click (Some "home")])
              (loadPage modernHost "about" false w) in
  nav_synced w' ∧ map data_page (navLinks w') = map data_page links.
Proof.
  intros links w w'.
  destruct (highlight_follows_currentPage modernHost "about" false w
              (settle ++ [Click (Some "home")]) ltac:(reflexivity))
    as (_ & _ & H3 & H4).
  split; [exact H3 | exact H4].
Defined.

(** ** The keyboard shortcut *)

(** X2: the shortcut acts only with Alt held, and then only as
    [navigateTo] on one of the four pages: Alt+1 to Alt+4 go to home, about,
    projects and contact, and no key reaches any other page. *)
Theorem shortcut_reaches_four_pages (h : Host) (w : World) :
  (∀ key, handleKeyboardNavigation h false key w = w) ∧
  (∀ altKey key,
     handleKeyboardNavigation h altKey key w = w ∨
     ∃ page, page ∈ ["home"; "about"; "projects"; "contact"] ∧
             handleKeyboardNavigation h altKey key w = navigateTo h page w) ∧
  handleKeyboardNavigation h true "1" w = navigateTo h "home" w ∧
  handleKeyboardNavigation h true "2" w = navigateTo h "about" w ∧
  handleKeyboardNavigation h true "3" w = navigateTo h "projects" w ∧
  handleKeyboardNavigation h true "4" w = navigateTo h "contact" w ∧
  handleKeyboardNavigation h true "5" w = w ∧
  handleKeyboardNavigation h true "0" w = w.
Proof.
  split; [done|]. split; [|by repeat split].
  intros altKey key. unfold handleKeyboardNavigation.
  destruct (altKey && String.leb "1" key && String.leb key "4"); [|by left].
  destruct (JS.parseInt key) as [[|pageIndex]|]; [by left| |by left].
  destruct (["home"; "about"; "projects"; "contact"] !! pageIndex) as [page|] eqn:Hp;
    [|by left].
  right. exists page. split; [|done]. by eapply list_elem_of_lookup_2.
Qed.

(** ** Requests during a transition *)




(** ** Nothing is announced without [IntersectionObserver] *)

Lemma silent_refl w : silent w w.
Proof. by repeat split. Qed.

Lemma silent_trans w1 w2 w3 : silent w1 w2 → silent w2 w3 → silent w1 w3.
Proof.
  intros (Ht & Hp & Ho) (Ht' & Hp' & Ho'). repeat split; [congruence..|auto].
Qed.

(** Closes a [silent] goal between explicit worlds. *)
Ltac close_silent :=
  unfold silent, pageLoads; cbn; rewrite ?List.filter_app; cbn;
  rewrite ?app_nil_r; repeat split; first [done | discriminate].

Section Silent.

Variable h : Host.
Hypothesis noObserver : hasIntersectionObserver h = false.

Lemma resume_silent k w : silent w (resume h k w).
Proof using noObserver.
  destruct w as [cp il [ts|] mc nl iv nn ti hi co tm mt nw tr], k;
    norm_world; close_silent.
Qed.

Lemma drain_silent n w : silent w (drain h n w).
Proof using noObserver.
  revert w. induction n as [|n IH]; intros w; [apply silent_refl|].
  destruct (microtasks w) as [|k ks] eqn:Hm.
  - rewrite drain_nil by done. apply silent_refl.
  - rewrite (drain_cons h n w k ks Hm).
    eapply silent_trans; [|apply IH].
    eapply silent_trans; [|apply resume_silent].
    destruct w. by repeat split.
Qed.

Lemma loadPage_silent page ps w : silent w (loadPage h page ps w).
Proof using Type.
  destruct w as [cp [] ao mc nl iv nn ti hi co tm mt nw tr]; norm_world; close_silent.
Qed.

Lemma navigateTo_silent page w : silent w (navigateTo h page w).
Proof using Type.
  destruct w as [cp [] ao mc nl iv nn ti hi co tm mt nw tr]; norm_world; close_silent.
Qed.

Lemma fireTimer_silent w : silent w (fireTimer w).
Proof using Type.
  destruct w as [cp il ao mc nl iv nn ti hi co [|[d dl [p|p]] tm] mt nw tr];
    unfold fireTimer; cbn; [apply silent_refl|..]; case_match; norm_world; close_silent.
Qed.

Lemma handle_silent w ev : silent w (handle h ev w).
Proof using Type.
  destruct ev as [link|altKey key|state|page|page ps|entries|ms|]; simpl.
  - unfold handleNavigation. repeat case_match;
      first [apply silent_refl | apply navigateTo_silent].
  - unfold handleKeyboardNavigation. repeat case_match;
      first [apply silent_refl | apply navigateTo_silent].
  - apply loadPage_silent.
  - apply navigateTo_silent.
  - apply loadPage_silent.
  - unfold deliver. case_match eqn:Ho; [|apply silent_refl].
    destruct (observerCallback_frame (filter (λ en : nat * bool, en.1 ∈ g) entries) w)
      as (_ & _ & _ & Ht & _ & _ & _ & _ & _ & Htr).
    unfold silent, pageLoads. rewrite Ht, Htr. repeat split. congruence.
  - destruct w. by repeat split.
  - apply fireTimer_silent.
Qed.

Lemma run_silent evs w : silent w (run h evs w).
Proof using noObserver.
  revert w. induction evs as [|ev evs IH]; intros w; [apply silent_refl|].
  rewrite run_cons. eapply silent_trans; [|apply IH].
  unfold dispatch. eapply silent_trans; [apply handle_silent | apply drain_silent].
Qed.

End Silent.

(** X4: on a host without [IntersectionObserver] no schedule ever changes
    the document title, dispatches a [pageLoaded] event or creates an
    observer: [updatePageTitle] and [dispatchPageLoadEvent] sit behind the
    throwing [setupScrollAnimations] in [loadPage]. *)
Theorem nothing_announced_without_observer (h : Host) (w : World) (evs : list Event) :
  hasIntersectionObserver h = false →
  title (run h evs w) = title w ∧
  pageLoads (run h evs w) = pageLoads w ∧
  (animationObserver w = None → animationObserver (run h evs w) = None).
Proof. intros Hno. by apply run_silent. Qed.

Lemma nothing_announced_without_observer_witness :
  let w := boot legacyHost (Some shellContainer) [] shellTitle 0 0 "home" in
  let w' := run legacyHost (Click (Some "about") :: settle ++ Click (Some "contact") :: settle) w in
  title w' = title w ∧ pageLoads w' = pageLoads w.
Proof.
  intros w w'.
  destruct (nothing_announced_without_observer legacyHost w
              (Click (Some "about") :: settle ++ Click (Some "contact") :: settle)
              ltac:(reflexivity)) as (H1 & H2 & _).
  split; [exact H1 | exact H2].
Defined.

(** ** What is shown at rest *)

Section Shown.

Variable h : Host.
Hypothesis sound : faulty h = false.

(** Closes a [shown] goal on an explicit world. *)
Ltac close_shown :=
  first [ eapply shown_out; cbn; first [reflexivity | eassumption]
        | eapply shown_in; cbn; first [reflexivity | eassumption]
        | eapply shown_idle; cbn; first [reflexivity | eassumption | done] ].

Lemma loadPage_shown page ps w : shown h w → shown h (checkpoint h (loadPage h page ps w)).
Proof using sound.
  destruct (faulty_false h sound) as (Ho & Hr & Hi & Hio).
  intros Hs. destruct w as [cp il ao mc nl iv nn ti hi co tm mt nw tr].
  inversion Hs; cbn in *; subst; run_app; close_shown.
Qed.

Lemma navigateTo_shown page w : shown h w → shown h (checkpoint h (navigateTo h page w)).
Proof using sound.
  destruct (faulty_false h sound) as (Ho & Hr & Hi & Hio).
  intros Hs. destruct w as [cp il ao mc nl iv nn ti hi co tm mt nw tr].
  inversion Hs; cbn in *; subst; run_app; close_shown.
Qed.

Lemma shown_idle_checkpoint w : shown h w → shown h (checkpoint h w).
Proof using Type.
  intros Hs. rewrite checkpoint_idle; [done|]. by destruct Hs.
Qed.

Lemma fireTimer_shown w : shown h w → shown h (checkpoint h (fireTimer w)).
Proof using sound.
  destruct (faulty_false h sound) as (Ho & Hr & Hi & Hio).
  intros Hs. destruct w as [cp il ao [[ih st nd]|] nl iv nn ti hi co tm mt nw tr];
    [|by destruct Hs].
  inversion Hs; cbn in *; simplify_eq; cbn in *; subst; unfold fireTimer; cbn.
  - run_app. close_shown.
  - destruct (Nat.leb_spec d nw); run_app; close_shown.
  - destruct (Nat.leb_spec d nw); run_app; close_shown.
Qed.

Lemma deliver_shown entries w : shown h w → shown h (checkpoint h (deliver entries w)).
Proof using Type.
  intros Hs. apply shown_idle_checkpoint.
  destruct (deliver_frame entries w)
    as (Hcp & Hl & Hmc & Hti & _ & _ & Htm & Hmt & _ & _).
  destruct Hs as [el ts ? ? ? ? ? ? ? Hao Hsub|el d dl|el d dl easing].
  - assert (∃ ts', animationObserver (deliver entries w) = Some ts' ∧ ts' ⊆ ts)
      as (ts' & Hao' & Hsub').
    { unfold deliver. destruct w as [cp il ao mc nl iv nn ti hi co tm mt nw tr].
      cbn in *. subst ao.
      destruct (observerCallback_spec
                  (filter (λ en : nat * bool, en.1 ∈ ts) entries)
                  (Build_World cp il (Some ts) mc nl iv nn ti hi co tm mt nw tr) ts eq_refl)
        as (ts' & Hobs & Hless & _).
      by exists ts'. }
    eapply shown_idle with (el := el) (ts := ts'); try congruence. by etrans.
  - eapply shown_out with (el := el); [congruence..| |congruence].
    rewrite Htm, Hcp. eassumption.
  - eapply shown_in with (el := el); [congruence..| |congruence|congruence|eassumption].
    rewrite Htm, Hcp. eassumption.
Qed.

Lemma dispatch_shown w ev : shown h w → shown h (dispatch h w ev).
Proof using sound.
  intros Hs. unfold dispatch.
  destruct ev as [link|altKey key|state|page|page ps|entries|ms|]; simpl.
  - unfold handleNavigation. repeat case_match;
      first [by apply shown_idle_checkpoint | by apply navigateTo_shown].
  - unfold handleKeyboardNavigation. repeat case_match;
      first [by apply shown_idle_checkpoint | by apply navigateTo_shown].
  - by apply loadPage_shown.
  - by apply navigateTo_shown.
  - by apply loadPage_shown.
  - by apply deliver_shown.
  - apply shown_idle_checkpoint.
    destruct w as [cp il ao mc nl iv nn ti hi co tm mt nw tr].
    inversion Hs; cbn in *; subst; close_shown.
  - by apply fireTimer_shown.
Qed.

Lemma run_shown evs w : shown h w → shown h (run h evs w).
Proof using sound.
  revert w. induction evs as [|ev evs IH]; intros w Hs; [done|].
  rewrite run_cons. by apply IH, dispatch_shown.
Qed.

Lemma boot_shown el links title0 firstNode clock initialPage :
  shown h (boot h (Some el) links title0 firstNode clock initialPage).
Proof using sound.
  destruct (faulty_false h sound) as (Ho & Hr & Hi & Hio).
  unfold boot, construct. run_app; close_shown.
Qed.

End Shown.

(** X5: on a host where nothing fails and with the container present,
    whenever the guard is clear after any schedule the container holds the
    payload of [currentPage] and is fully visible (opacity 1, no offset, no
    transition left), the title is the title of [currentPage], and
    the observer watches only elements that are in the document (those
    outside the container and those of the payload shown). *)
Theorem settled_page_is_shown (h : Host) (el : Element) (links : list NavLink)
    (title0 : string) (firstNode clock : nat) (initialPage : Page) (evs : list Event) :
  faulty h = false →
  let w := run h evs (boot h (Some el) links title0 firstNode clock initialPage) in
  isLoading w = false →
  ∃ el' ts,
    mainContent w = Some el' ∧
    innerHTML el' = getPageContent (currentPage w) ∧
    style el' = visible ∧
    title w = pageTitle (currentPage w) ∧
    animationObserver w = Some ts ∧
    ts ⊆ outerNodes h ∪ nodes el'.
Proof.
  intros Hf w Hl.
  assert (Hs : shown h w) by (by apply run_shown, boot_shown).
  destruct Hs as [el' ts|el' d dl Hl'|el' d dl easing Hl']; [|congruence..].
  by exists el', ts.
Qed.

Lemma settled_page_is_shown_witness :
  let w := run modernHost (settle ++ KeyDown true "3" :: settle)
             (boot modernHost (Some shellContainer) [] shellTitle 0 0 "about") in
  currentPage w = "projects" ∧
  ∃ el' ts,
    mainContent w = Some el' ∧
    innerHTML el' = getPageContent (currentPage w) ∧
    style el' = visible ∧
    title w = pageTitle (currentPage w) ∧
    animationObserver w = Some ts ∧
    ts ⊆ outerNodes modernHost ∪ nodes el'.
Proof.
  intros w. split; [vm_compute; reflexivity|].
  apply (settled_page_is_shown modernHost shellContainer [] shellTitle 0 0 "about"
           (settle ++ KeyDown true "3" :: settle) ltac:(reflexivity)).
  vm_compute; reflexivity.
Defined.

(** ** What an observer report does *)

Lemma intersecting_cons_hit e entries :
  intersecting ((e, true) :: entries) = {[e]} ∪ intersecting entries.
Proof. done. Qed.

Lemma intersecting_cons_miss e entries :
  intersecting ((e, false) :: entries) = intersecting entries.
Proof. done. Qed.

(** X6: the observer callback is a function of the set of targets
    reported as intersecting: it adds exactly those to the revealed
    elements, removes exactly those from the observer's targets, ignores
    the entries that are not intersecting, the order of the entries and
    their repetitions, and touches nothing else. *)
Theorem observerCallback_reveals (entries : list (nat * bool)) (w : World)
    (ts : gset nat) :
  animationObserver w = Some ts →
  inView (observerCallback entries w) = inView w ∪ intersecting entries ∧
  animationObserver (observerCallback entries w) = Some (ts ∖ intersecting entries) ∧
  frame w (observerCallback entries w).
Proof.
  intros Ho. split; [|split]; [| |apply observerCallback_frame].
  - clear Ho ts. unfold observerCallback. revert w.
    induction entries as [|[e []] entries IH]; intros w.
    + cbn. unfold intersecting. cbn. by rewrite (right_id_L ∅ (∪)).
    + cbn [foldl]. rewrite IH, intersecting_cons_hit.
      destruct w as [cp il ao mc nl iv nn ti hi co tm mt nw tr]. cbn.
      rewrite (comm_L (∪) {[e]} iv). by rewrite (assoc_L (∪)).
    + cbn [foldl]. by rewrite IH, intersecting_cons_miss.
  - unfold observerCallback. revert w ts Ho.
    induction entries as [|[e []] entries IH]; intros w ts Ho.
    + cbn. unfold intersecting. cbn. by rewrite Ho, difference_empty_L.
    + cbn [foldl]. rewrite intersecting_cons_hit.
      destruct w as [cp il ao mc nl iv nn ti hi co tm mt nw tr]. cbn in Ho. subst ao.
      rewrite (IH _ (ts ∖ {[e]})) by done.
      f_equal. apply set_eq. intros x.
      rewrite !elem_of_difference, elem_of_union. tauto.
    + cbn [foldl]. rewrite intersecting_cons_miss. by apply IH.
Qed.

Lemma observerCallback_reveals_witness :
  let w := set_animationObserver (Some {[1; 2; 3]})
             (construct (Some shellContainer) [] shellTitle 4 0) in
  let w' := observerCallback [(2, true); (1, false); (2, true); (3, true)] w in
  inView w' = inView w ∪ intersecting [(2, true); (1, false); (2, true); (3, true)] ∧
  animationObserver w' =
    Some ({[1; 2; 3]} ∖ intersecting [(2, true); (1, false); (2, true); (3, true)]).
Proof.
  intros w w'.
  destruct (observerCallback_reveals [(2, true); (1, false); (2, true); (3, true)] w
              {[1; 2; 3]} ltac:(reflexivity)) as (H1 & H2 & _).
  split; [exact H1 | exact H2].
Defined.

(** * Properties of the rest of the script *)

(** ** Construction *)

(** X7: the constructor never reaches [init()].  Its fourth [bind]
    statement reads [this.handleScroll], which no method of the class, no
    own property and no member of [Object.prototype] defines, so it throws
    a [TypeError] on every host and in every document: [setup()] never
    runs, and the statements after [new ModernWebApp()] never do either
    ([window.app] and [window.utils] stay undefined, the global error
    listeners are never added).  The three methods before it are bound. *)
Theorem constructor_throws_at_handleScroll (h : Host) (doc : Document) :
  let r := script ModernWebApp_methods h doc in
  uncaught r = Some (TypeError "Cannot read properties of undefined (reading 'bind')") ∧
  started r = None ∧ deferredSetup r = false ∧
  window_app r = None ∧ window_utils r = false ∧ globalHandlers r = [] ∧
  instance r = Some (constructor_fields ++
                       [ ("handleNavigation", BoundMethod "handleNavigation");
                         ("handlePopState", BoundMethod "handlePopState");
                         ("handleMobileMenu", BoundMethod "handleMobileMenu") ])%list ∧
  member ModernWebApp_methods constructor_fields "handleScroll" = None.
Proof. by repeat split. Qed.

(** ** The page of a path *)

Lemma split_nonempty c s : JSString.split c s ≠ [].
Proof.
  destruct s as [|d s]; simpl; [done|].
  destruct (Ascii.eqb d c); [done|]. by destruct (JSString.split c s).
Qed.

Lemma pop_cons x l : l ≠ [] → JSString.pop (x :: l) = JSString.pop l.
Proof. by destruct l. Qed.

Lemma split_plain c s : JSString.has c s = false → JSString.split c s = [s].
Proof.
  induction s as [|d s IH]; simpl; [done|].
  intros H. apply orb_false_elim in H as [Hd Hs]. by rewrite Hd, (IH Hs).
Qed.

Lemma split_two c s :
  JSString.has c s = true → ∃ seg x rest, JSString.split c s = seg :: x :: rest.
Proof.
  induction s as [|d s IH]; simpl; [done|].
  destruct (Ascii.eqb d c) eqn:Hd; simpl.
  - intros _. destruct (JSString.split c s) as [|x rest] eqn:Hs.
    + by apply split_nonempty in Hs.
    + by exists EmptyString, x, rest.
  - intros Hs. destruct (IH Hs) as (seg & x & rest & ->). by exists (String d seg), x, rest.
Qed.

Lemma pop_split_String c d s :
  JSString.has c s = true →
  JSString.pop (JSString.split c (String d s)) = JSString.pop (JSString.split c s).
Proof.
  intros Hs. destruct (split_two c s Hs) as (seg & x & rest & Heq). simpl.
  destruct (Ascii.eqb d c); by rewrite Heq.
Qed.

Lemma has_app c s t : JSString.has c (s +:+ t) = JSString.has c s || JSString.has c t.
Proof.
  induction s as [|d s IH]; simpl; [done|]. by rewrite IH, orb_assoc.
Qed.

(** Only the last segment of the path counts. *)
Lemma pop_split_last c s t :
  JSString.has c t = false →
  JSString.pop (JSString.split c (s +:+ String c t)) = t.
Proof.
  intros Ht. induction s as [|d s IH].
  - simpl. rewrite Ascii.eqb_refl, (split_plain c t Ht). done.
  - change (String d s +:+ String c t) with (String d (s +:+ String c t)).
    rewrite pop_split_String; [done|].
    rewrite has_app. simpl. rewrite Ascii.eqb_refl. by rewrite orb_true_r.
Qed.

Lemma pop_split_has c s : JSString.has c (JSString.pop (JSString.split c s)) = false.
Proof.
  induction s as [|d s IH]; simpl; [done|].
  destruct (Ascii.eqb d c) eqn:Hd.
  - rewrite pop_cons by apply split_nonempty. done.
  - destruct (JSString.split c s) as [|seg [|x rest]] eqn:Hs.
    + by apply split_nonempty in Hs.
    + unfold JSString.pop in *. simpl in *. by rewrite Hd, IH.
    + done.
Qed.

Lemma skip_has c n s : JSString.has c s = false → JSString.has c (JSString.skip n s) = false.
Proof.
  revert s. induction n as [|n IH]; intros [|d s]; simpl; try done.
  intros H. apply orb_false_elim in H as [_ Hs]. by apply IH.
Qed.

Lemma replace_has c pattern s :
  JSString.has c s = false →
  JSString.has c (JSString.replace pattern EmptyString s) = false.
Proof.
  induction s as [|d s IH]; intros Hs.
  - cbn [JSString.replace]. destruct (String.prefix pattern EmptyString); [|done].
    by destruct (String.length pattern).
  - cbn [JSString.replace]. destruct (String.prefix pattern (String d s)).
    + by apply skip_has.
    + simpl in *. apply orb_false_elim in Hs as [Hd Hs]. by rewrite Hd, IH.
Qed.

Lemma replace_absent pattern replacement s :
  JSString.includes pattern s = false →
  JSString.replace pattern replacement s = s.
Proof.
  induction s as [|d s IH]; intros Hs.
  - simpl in *. apply orb_false_elim in Hs as [-> _]. done.
  - cbn [JSString.replace JSString.includes] in *.
    apply orb_false_elim in Hs as [-> Hs]. by rewrite IH.
Qed.

Lemma prefix_head c p d s :
  Ascii.eqb d c = false → String.prefix (String c p) (String d s) = false.
Proof.
  intros H. cbn [String.prefix].
  destruct (ascii_dec c d) as [->|]; [by rewrite Ascii.eqb_refl in H | done].
Qed.

Lemma includes_html_dot s :
  JSString.has "." s = false → JSString.includes ".html" s = false.
Proof.
  induction s as [|d s IH]; [done|].
  cbn [JSString.has JSString.includes]. intros H.
  apply orb_false_elim in H as [Hd Hs]. rewrite (IH Hs), orb_false_r.
  by apply prefix_head.
Qed.

Lemma replace_html_suffix s :
  JSString.has "." s = false →
  JSString.replace ".html" EmptyString (s +:+ ".html") = s.
Proof.
  induction s as [|d s IH]; [done|].
  intros H. simpl in H. apply orb_false_elim in H as [Hd Hs].
  change (String d s +:+ ".html") with (String d (s +:+ ".html")).
  cbn [JSString.replace].
  rewrite (prefix_head "." "html" d _ Hd). by rewrite (IH Hs).
Qed.

Lemma getPageFromURL_segment dir page :
  JSString.has "/" page = false →
  getPageFromURL (dir +:+ String "/" page) =
    let stripped := JSString.replace ".html" EmptyString page in
    let p := if String.eqb stripped EmptyString then "home" else stripped in
    if String.eqb p "index" then "home" else p.
Proof. intros Hp. unfold getPageFromURL. by rewrite pop_split_last. Qed.

Lemma getPageFromURL_returnedAsIs dir segment :
  returnedAsIs segment → getPageFromURL (dir +:+ String "/" segment) = segment.
Proof.
  intros (Hs & Hh & Hne & Hni).
  rewrite getPageFromURL_segment by done. cbn zeta.
  rewrite (replace_absent _ _ _ Hh).
  destruct (String.eqb_spec segment EmptyString); [done|].
  by destruct (String.eqb_spec segment "index").
Qed.

(** X8: as a function of the path name, [getPageFromURL] returns the last
    segment of the path as it is when that segment is not empty, does not
    contain ['.html'] and is not ['index'], whatever comes before it; and it
    returns the segment without its ending when the path ends in the segment
    followed by ['.html'] and the segment holds no dot. *)
Theorem getPageFromURL_last_segment (segment dir : string) :
  returnedAsIs segment →
  getPageFromURL (dir +:+ "/" +:+ segment) = segment ∧
  (JSString.has "." segment = false →
   getPageFromURL (dir +:+ "/" +:+ segment +:+ ".html") = segment).
Proof.
  intros Ha. split.
  - by apply getPageFromURL_returnedAsIs.
  - intros Hd. destruct Ha as (Hs & Hh & Hne & Hni).
    change (dir +:+ "/" +:+ segment +:+ ".html")
      with (dir +:+ String "/" (segment +:+ ".html")).
    rewrite getPageFromURL_segment by (by rewrite has_app, Hs).
    cbn zeta. rewrite (replace_html_suffix segment Hd).
    destruct (String.eqb_spec segment EmptyString); [done|].
    by destruct (String.eqb_spec segment "index").
Qed.

Lemma getPageFromURL_last_segment_witness :
  getPageFromURL ("/site" +:+ "/" +:+ "projects") = "projects" ∧
  getPageFromURL ("/site" +:+ "/" +:+ "projects" +:+ ".html") = "projects".
Proof.
  assert (Ha : returnedAsIs "projects")
    by (unfold returnedAsIs; repeat split; first [reflexivity | discriminate]).
  destruct (getPageFromURL_last_segment "projects" "/site" Ha) as [H1 H2].
  split; [exact H1 | apply H2; reflexivity].
Defined.

(** X9: what [getPageFromURL] never returns and where it falls back: the
    result is never empty, never ['index'] and holds no slash; a path that
    ends in a slash, in ['/index'], in ['/index.html'] or in ['/.html']
    gives ['home']; and ['.html'] is removed where it first occurs in the
    last segment, not only at its end. *)
Theorem getPageFromURL_defaults (pathname dir : string) :
  getPageFromURL pathname ≠ EmptyString ∧
  getPageFromURL pathname ≠ "index" ∧
  JSString.has "/" (getPageFromURL pathname) = false ∧
  getPageFromURL (dir +:+ "/") = "home" ∧
  getPageFromURL (dir +:+ "/index") = "home" ∧
  getPageFromURL (dir +:+ "/index.html") = "home" ∧
  getPageFromURL (dir +:+ "/.html") = "home" ∧
  getPageFromURL (dir +:+ "/a.htmlb.html") = "ab.html".
Proof.
  repeat split; try (by rewrite getPageFromURL_segment).
  - unfold getPageFromURL. repeat case_match; try done.
    by apply String.eqb_neq.
  - unfold getPageFromURL. repeat case_match; try done.
    by apply String.eqb_neq.
  - unfold getPageFromURL.
    pose proof (replace_has "/" ".html" _ (pop_split_has "/" pathname)) as Hr.
    repeat case_match; done.
Qed.

(** ** The navbar scroll effect *)

Lemma scroll_step_inv s ev : scroll_inv s → scroll_inv (scroll_step s ev).
Proof.
  destruct s as [[] n y bar], ev as [y'|]; intros [[Hs Hn]|[Hs Hn]];
    cbn in *; subst; try discriminate; unfold scroll_inv; cbn; auto.
Qed.

Lemma scroll_step_navbar s ev :
  is_Some (navbar (scroll_step s ev)) ↔ is_Some (navbar s).
Proof.
  destruct s as [[] n y bar], ev as [y'|]; cbn; try done.
  - unfold animationFrame; cbn. induction n as [|n IH]; cbn; [done|].
    rewrite fmap_is_Some. apply IH.
  - unfold animationFrame; cbn. induction n as [|n IH]; cbn; [done|].
    rewrite fmap_is_Some. apply IH.
Qed.

Lemma scroll_run_inv evs s :
  scroll_inv s →
  scroll_inv (foldl scroll_step s evs) ∧
  (is_Some (navbar (foldl scroll_step s evs)) ↔ is_Some (navbar s)).
Proof.
  revert s. induction evs as [|ev evs IH]; intros s Hs; [done|].
  cbn. destruct (IH (scroll_step s ev) (scroll_step_inv s ev Hs)) as [H1 H2].
  split; [done|]. rewrite H2. apply scroll_step_navbar.
Qed.

Lemma scroll_then_frame s y :
  scroll_inv s →
  let s' := scroll_step (scroll_step s (ScrollTo y)) AnimationFrame in
  isScrolling s' = false ∧ frameRequests s' = 0 ∧
  navbar s' =
    (λ _, negb (QArith_base.Qle_bool y (QArith_base.inject_Z 50))) <$> navbar s.
Proof.
  destruct s as [[] n y0 bar]; intros [[Hs Hn]|[Hs Hn]];
    cbn in *; subst; try discriminate; done.
Qed.

(** X12: however many [scroll] events arrive, at most one frame callback
    is requested at a time, and the flag [isScrolling] is set exactly while
    it is; after any scrolling that ends at offset [y], the next frame
    leaves the navbar with class [scrolled] exactly if [y > 50], clears the
    flag, and leaves no request behind.  Without a navbar nothing is
    written and nothing throws. *)
Theorem scroll_effect_coalesces (bar : option bool) (y0 : QArith_base.Q)
    (evs : list ScrollEvent) (ys : list QArith_base.Q) (y : QArith_base.Q) :
  let s := foldl scroll_step (setupScrollEffects bar y0) evs in
  (frameRequests s ≤ 1)%nat ∧
  (isScrolling s = true ↔ frameRequests s = 1) ∧
  let s' := foldl scroll_step s (map ScrollTo (ys ++ [y]) ++ [AnimationFrame])%list in
  isScrolling s' = false ∧ frameRequests s' = 0 ∧
  navbar s' =
    (λ _, negb (QArith_base.Qle_bool y (QArith_base.inject_Z 50))) <$> bar.
Proof.
  intros s.
  assert (H0 : scroll_inv (setupScrollEffects bar y0)) by (by right).
  destruct (scroll_run_inv evs _ H0) as [Hs Hbar]. fold s in Hs, Hbar.
  split; [|split].
  - destruct Hs as [[_ ->]|[_ ->]]; lia.
  - destruct Hs as [[-> ->]|[-> ->]]; split; done.
  - intros s'. subst s'.
    rewrite map_app, <- app_assoc, !foldl_app. cbn [map foldl app].
    destruct (scroll_run_inv (map ScrollTo ys) s Hs) as [Hs1 Hbar1].
    destruct (scroll_then_frame (foldl scroll_step s (map ScrollTo ys)) y Hs1)
      as (E1 & E2 & E3).
    split; [done|]. split; [done|]. rewrite E3.
    cbn in Hbar. destruct (navbar (foldl scroll_step s (map ScrollTo ys))) as [b|] eqn:Hb,
      bar as [b0|]; try done.
    + exfalso. apply (is_Some_None (A := bool)). apply Hbar, Hbar1. by eexists.
    + exfalso. apply (is_Some_None (A := bool)). apply Hbar1, Hbar. by eexists.
Qed.

(** ** The mobile menu *)

Lemma closeMobileMenu_coherent t i a log :
  svg t = Some i →
  closeMobileMenu {| toggle := Some t; nav := Some a; menuConsole := log |} =
    Done {| toggle := Some {| aria_expanded := Some "false"; svg := Some MenuLines |};
            nav := Some false;
            menuConsole := log |}.
Proof. intros Hi. unfold closeMobileMenu. cbn. by rewrite Hi. Qed.

Lemma menu_step_coherent m ev : menu_coherent m → menu_coherent (menu_step m ev).
Proof.
  destruct m as [tg nv log]. intros (a & Hn & Ht). cbn in Hn, Ht. subst tg nv.
  destruct ev as [|onLink|key|]; cbn.
  - exists (negb a). by destruct a.
  - destruct onLink; cbn; [|by exists a]. exists false. by destruct a.
  - destruct (String.eqb key "Escape"); cbn; [|by exists a]. exists false. by destruct a.
  - exists false. by destruct a.
Qed.

(** X13: once the attribute [aria-expanded], the class [active] and the
    icon agree, no sequence of clicks, key presses and resizes separates
    them again; from such a state Escape, a click on a link of the menu and
    a resize each leave the menu closed, and two clicks on the toggle bring
    back the state before them. *)
Theorem menu_stays_coherent (m : Menu) (evs : list MenuEvent) :
  menu_coherent m →
  let m' := foldl menu_step m evs in
  menu_coherent m' ∧
  nav (menu_step m' (MenuKey "Escape")) = Some false ∧
  nav (menu_step m' (NavClick true)) = Some false ∧
  nav (menu_step m' ResizeSettled) = Some false ∧
  menu_step (menu_step m' ToggleClick) ToggleClick = m'.
Proof.
  intros Hm m'.
  assert (Hc : menu_coherent m').
  { subst m'. revert m Hm. induction evs as [|ev evs IH]; intros m Hm; [done|].
    cbn. by apply IH, menu_step_coherent. }
  split; [done|]. clearbody m'. destruct m' as [tg nv log].
  destruct Hc as (a & Hn & Ht). cbn in Hn, Ht. subst tg nv.
  by destruct a.
Qed.

Lemma menu_stays_coherent_witness :
  let m := {| toggle := Some {| aria_expanded := Some "false"; svg := Some MenuLines |};
              nav := Some false;
              menuConsole := [] |} in
  let m' := foldl menu_step m [ToggleClick; ResizeSettled; ToggleClick] in
  menu_coherent m' ∧ nav m' = Some true ∧
  nav (menu_step m' (MenuKey "Escape")) = Some false.
Proof.
  intros m m'.
  assert (Hm : menu_coherent m) by (exists false; split; reflexivity).
  destruct (menu_stays_coherent m [ToggleClick; ResizeSettled; ToggleClick] Hm)
    as (H1 & H2 & _).
  split; [exact H1|]. split; [reflexivity | exact H2].
Defined.

Lemma toggle_click_mismatch m :
  menu_mismatch m → menu_mismatch (menu_step m ToggleClick).
Proof.
  destruct m as [tg nv lg]. intros (t' & a' & Ht & Hn & Hx).
  cbn in Ht, Hn. subst tg nv. destruct t' as [ae [i|]]; cbn in *.
  - eexists _, _. split; [reflexivity|]. split; [reflexivity|]. cbn.
    destruct a'; case_bool_decide; cbn in *; done.
  - eexists _, _. split; [reflexivity|]. split; [reflexivity|]. cbn.
    destruct a'; case_bool_decide; cbn in *; done.
Qed.

(** X14: [handleMobileMenu] flips the attribute and the class each from
    its own old value, so a toggle that announces the opposite of what the
    class shows keeps doing so after every click, with or without an icon;
    [closeMobileMenu] writes both, and on a menu with its icon it ends in
    the closed state with the three lines whatever the state before; and a
    first click on a menu that did not disagree leaves attribute, class and
    icon in agreement. *)
Theorem menu_mismatch_persists (t : ToggleButton) (isActive : bool)
    (log : list LogLine) (n : nat) :
  let m := {| toggle := Some t; nav := Some isActive; menuConsole := log |} in
  (menu_mismatch m → menu_mismatch (Nat.iter n (λ m, menu_step m ToggleClick) m)) ∧
  (is_Some (svg t) →
   menu_coherent (menu_of (closeMobileMenu m)) ∧
   nav (menu_of (closeMobileMenu m)) = Some false ∧
   (¬ menu_mismatch m → menu_coherent (menu_step m ToggleClick))).
Proof.
  intros m. split.
  - intros Hm. induction n as [|n IH]; [done|]. by apply toggle_click_mismatch.
  - intros [i Hi]. destruct t as [ae sv]. cbn in Hi. subst sv. subst m. cbn.
    split; [by exists false|]. split; [done|].
    intros Hno. exists (negb isActive). split; [done|].
    destruct isActive; case_bool_decide as Hae; cbn; try done.
    + exfalso. apply Hno. eexists _, _. split; [reflexivity|]. split; [reflexivity|].
      cbn. by rewrite bool_decide_eq_false_2.
    + exfalso. apply Hno. eexists _, _. split; [reflexivity|]. split; [reflexivity|].
      cbn. by rewrite bool_decide_eq_true_2.
Qed.

Lemma menu_mismatch_persists_witness :
  let m := {| toggle := Some {| aria_expanded := Some "true"; svg := Some ShippedIcon |};
              nav := Some false;
              menuConsole := [] |} in
  menu_mismatch (Nat.iter 3 (λ m, menu_step m ToggleClick) m) ∧
  menu_coherent (menu_of (closeMobileMenu m)).
Proof.
  intros m.
  destruct (menu_mismatch_persists
              {| aria_expanded := Some "true"; svg := Some ShippedIcon |} false [] 3)
    as [H1 H2].
  split.
  - apply H1. eexists _, _. split; [reflexivity|]. split; reflexivity.
  - apply H2. by eexists.
Defined.

Lemma menu_step_no_icon m ev :
  (∃ t, toggle m = Some t ∧ svg t = None) → is_Some (nav m) →
  (∃ t, toggle (menu_step m ev) = Some t ∧ svg t = None) ∧
  is_Some (nav (menu_step m ev)) ∧
  menuConsole (menu_step m ev) = menuConsole m.
Proof.
  destruct m as [tg nv log]. intros ([ae sv] & Ht & Hs) [a Hn].
  cbn in Ht, Hs, Hn. subst tg nv sv.
  destruct ev as [|onLink|key|]; cbn.
  - split; [by eexists|]. split; [by eexists | done].
  - destruct onLink; cbn; (split; [by eexists|]); (split; [by eexists | done]).
  - destruct (String.eqb key "Escape"); cbn; (split; [by eexists|]);
      (split; [by eexists | done]).
  - split; [by eexists|]. split; [by eexists | done].
Qed.

(** X15: when the document has a [.navbar-nav] and a toggle without an
    [svg], both menu functions throw after they have written the attribute
    and the class: [handleMobileMenu] raises with both already flipped,
    [closeMobileMenu] with both already reset, [handleResize] raises before
    it logs, and on no sequence of events is ['Window resized'] ever
    logged.  Without a [.navbar-nav] the missing [svg] is never reached:
    [closeMobileMenu] returns at its test and [handleResize] logs. *)
Theorem menu_without_icon_throws (ae : option string) (isActive : bool)
    (log : list LogLine) (evs : list MenuEvent) :
  let m := {| toggle := Some {| aria_expanded := ae; svg := None |};
              nav := Some isActive;
              menuConsole := log |} in
  let e := TypeError "Cannot set properties of null (setting 'innerHTML')" in
  handleMobileMenu m =
    Raised e {| toggle := Some {| aria_expanded :=
                                    Some (if bool_decide (ae = Some "true")
                                          then "false" else "true");
                                  svg := None |};
                nav := Some (negb isActive);
                menuConsole := log |} ∧
  closeMobileMenu m =
    Raised e {| toggle := Some {| aria_expanded := Some "false"; svg := None |};
                nav := Some false;
                menuConsole := log |} ∧
  (∃ m', handleResize m = Raised e m') ∧
  menuConsole (foldl menu_step m evs) = log ∧
  let m0 := {| toggle := Some {| aria_expanded := ae; svg := None |};
               nav := None;
               menuConsole := log |} in
  closeMobileMenu m0 = Done m0 ∧
  handleResize m0 =
    Done {| toggle := toggle m0;
            nav := None;
            menuConsole := (log ++ [ConsoleLog "Window resized"])%list |}.
Proof.
  intros m e. split; [done|]. split; [done|]. split; [by eexists|].
  split; [|done].
  assert (H : ∀ m0 : Menu,
             (∃ t, toggle m0 = Some t ∧ svg t = None) → is_Some (nav m0) →
             menuConsole (foldl menu_step m0 evs) = menuConsole m0).
  { induction evs as [|ev evs IH]; intros m0 Ht Hn; [done|].
    destruct (menu_step_no_icon m0 ev Ht Hn) as (Ht' & Hn' & Hl).
    cbn. by rewrite IH. }
  apply (H m); [by eexists | by eexists].
Qed.

(** ** Debouncing and throttling *)

Section DebounceFacts.

Context {A : Type}.
Variable wait : nat.
Variable clearsFirst : bool.

Lemma clearTimeout_own (t : Scheduled A) :
  clearTimeout (Some (timerId t)) [t] = [].
Proof. unfold clearTimeout. cbn. by rewrite Nat.eqb_refl. Qed.

Lemma debounce_step_inv (s : Debounced A) ev :
  debounce_inv s → debounce_inv (debounce_step wait clearsFirst s ev).
Proof.
  destruct s as [to q nid nw inv]. unfold debounce_inv. cbn.
  intros [->|([i d a] & -> & ->)]; destruct ev as [args|ms|]; cbn.
  - right. destruct to; cbn; by eexists.
  - by left.
  - by left.
  - right. eexists. rewrite Nat.eqb_refl. cbn. done.
  - right. by eexists.
  - destruct (d <=? nw)%nat; cbn.
    + left. by destruct clearsFirst.
    + right. by eexists.
Qed.

Lemma debounce_run_inv evs (s : Debounced A) :
  debounce_inv s → debounce_inv (foldl (debounce_step wait clearsFirst) s evs).
Proof.
  revert s. induction evs as [|ev evs IH]; intros s Hs; [done|].
  cbn. by apply IH, debounce_step_inv.
Qed.

Lemma debounce_call_then_wait (s : Debounced A) args ms :
  debounce_inv s →
  let s' := foldl (debounce_step wait clearsFirst) s [DCall args; DElapse ms; DTimerDue] in
  invocations s' =
    (invocations s ++ if decide (wait ≤ ms)%nat then [(debounceClock s + ms, args)] else [])%list ∧
  scheduled s' =
    if decide (wait ≤ ms)%nat then []
    else [{| timerId := nextTimerId s; fireAt := debounceClock s + wait; payload := args |}].
Proof.
  destruct s as [to q nid nw inv]. unfold debounce_inv. cbn.
  intros [->|([i d a] & -> & ->)]; cbn.
  - assert (Hq : clearTimeout to ([] : list (Scheduled A)) = []) by (by destruct to).
    rewrite Hq. cbn.
    destruct (Nat.leb_spec (nw + wait) (nw + ms)); case_decide; try lia; cbn.
    + by destruct clearsFirst.
    + by rewrite app_nil_r.
  - rewrite Nat.eqb_refl. cbn.
    destruct (Nat.leb_spec (nw + wait) (nw + ms)); case_decide; try lia; cbn.
    + by destruct clearsFirst.
    + by rewrite app_nil_r.
Qed.

End DebounceFacts.

(** X16: a debounced function keeps at most one timer alive, the one its
    variable names; whatever happened before, a call followed by [ms]
    milliseconds without another call and then the timer runs the function
    exactly once, with the arguments of that call, if [ms] is at least
    [wait], and not at all if it is less (the timer stays pending).  This
    holds with and without the [clearTimeout] at the start of the callback:
    for [utils.debounce] and for the resize listener. *)
Theorem debounce_runs_last_call {A : Type} (wait : nat) (clearsFirst : bool)
    (evs : list (DebounceEvent A)) (args : A) (ms : nat) :
  let step := debounce_step wait clearsFirst in
  let s := foldl step debounce evs in
  let s' := foldl step s [DCall args; DElapse ms; DTimerDue] in
  (List.length (scheduled s) ≤ 1)%nat ∧
  (∀ t, t ∈ scheduled s → timeout s = Some (timerId t)) ∧
  invocations s' =
    (invocations s ++ if decide (wait ≤ ms)%nat then [(debounceClock s + ms, args)] else [])%list ∧
  scheduled s' =
    if decide (wait ≤ ms)%nat then []
    else [{| timerId := nextTimerId s; fireAt := debounceClock s + wait; payload := args |}].
Proof.
  intros step s s'.
  assert (Hs : debounce_inv s) by (apply debounce_run_inv; by left).
  split; [|split].
  - destruct Hs as [->|(t & -> & _)]; cbn; lia.
  - intros t Ht. destruct Hs as [Hq|(u & Hq & Hto)]; rewrite Hq in Ht.
    + by apply elem_of_nil in Ht.
    + apply list_elem_of_singleton in Ht. by subst.
  - by apply debounce_call_then_wait.
Qed.

Section ThrottleFacts.

Context {A : Type}.
Variable limit : nat.

Lemma spaced_snoc (l : list (nat * A)) x y :
  spaced limit (l ++ [x]) → (x.1 + limit ≤ y.1)%nat → spaced limit ((l ++ [x]) ++ [y]).
Proof.
  induction l as [|a [|b l] IH]; cbn; intros H Hxy.
  - done.
  - destruct H as [H1 _]. done.
  - destruct H as [H1 H2]. split; [done|]. by apply IH.
Qed.

Lemma throttle_step_inv (s : Throttled A) ev :
  throttle_inv limit s → throttle_inv limit (throttle_step limit s ev).
Proof.
  destruct s as [fl q nw ps]. unfold throttle_inv. cbn.
  intros [Hsp Hl]. destruct ev as [args|ms|]; cbn.
  - destruct fl; cbn; [done|].
    rewrite last_snoc. cbn. destruct (last ps) as [x|] eqn:Hx.
    + destruct Hl as (Hle & -> & Hlim). split; [|done].
      apply last_Some in Hx as [l' ->]. by apply spaced_snoc.
    + destruct Hl as [_ ->]. apply last_None in Hx. subst ps. done.
  - split; [done|]. destruct (last ps) as [x|]; [|done].
    destruct Hl as [Hle Hl]. split; [lia|]. destruct fl; [done|].
    destruct Hl as [-> Hl]. split; [done | lia].
  - destruct (last ps) as [x|] eqn:Hx.
    + destruct Hl as [Hle Hl]. destruct fl.
      * subst q. cbn. destruct (Nat.leb_spec (x.1 + limit) nw); cbn; rewrite Hx; done.
      * destruct Hl as [-> Hl]. cbn. rewrite Hx. done.
    + destruct Hl as [-> ->]. cbn. by rewrite Hx.
Qed.

Lemma throttle_run_inv evs (s : Throttled A) :
  throttle_inv limit s → throttle_inv limit (foldl (throttle_step limit) s evs).
Proof.
  revert s. induction evs as [|ev evs IH]; intros s Hs; [done|].
  cbn. by apply IH, throttle_step_inv.
Qed.

End ThrottleFacts.

(** X17: a throttled function never runs the function twice within
    [limit] milliseconds; its flag is set exactly while the one reset
    timer is pending; a call made while the flag is set is dropped for
    good, arguments included, and a call made with the flag clear runs the
    function at once. *)
Theorem throttle_spaces_calls {A : Type} (limit : nat)
    (evs : list (DebounceEvent A)) (args : A) :
  let s := foldl (throttle_step limit) throttle evs in
  spaced limit (passed s) ∧
  (List.length (resets s) ≤ 1)%nat ∧
  (inThrottle s = true ↔ resets s ≠ []) ∧
  passed (throttle_step limit s (DCall args)) =
    (passed s ++ if inThrottle s then [] else [(throttleClock s, args)])%list.
Proof.
  intros s.
  assert (Hs : throttle_inv limit s) by (apply throttle_run_inv; by split).
  destruct Hs as [Hsp Hl]. split; [done|].
  destruct (last (passed s)) as [x|], (inThrottle s) eqn:Hf.
  - destruct Hl as [_ Hq]. rewrite Hq. cbn. unfold throttled. rewrite Hf.
    split; [lia|]. split; [done|]. by rewrite app_nil_r.
  - destruct Hl as [_ [Hq _]]. rewrite Hq. cbn. unfold throttled. rewrite Hf.
    split; [lia|]. split; [|done]. split; [done|]. by intros [].
  - by destruct Hl.
  - destruct Hl as [_ Hq]. rewrite Hq. cbn. unfold throttled. rewrite Hf.
    split; [lia|]. split; [|done]. split; [done|]. by intros [].
Qed.
